(** * Soundboard: hotkey dispatch, playback routing and persistence

    A shallow embedding of [soundboard.py].  The window object
    ([SoundboardWindow]) is a record of its attributes together with the
    external state its methods act on (the [keyboard] module, the
    [sounddevice] streams, the [QSettings] array); every method is a
    computation in a state-and-exception monad over that record.

    Python [str] values are modelled by [string], read as UTF-8 bytes. *)

From Stdlib Require Import String Ascii List Bool Arith Lia.
Import ListNotations.
Local Open Scope string_scope.
Local Open Scope list_scope.

Set Implicit Arguments.

(** ** Python strings *)

Module Str.

(** [s.startswith(p)] *)
Fixpoint startswith (p s : string) : bool :=
  match p, s with
  | EmptyString, _ => true
  | String a p', String b s' => Ascii.eqb a b && startswith p' s'
  | String _ _, EmptyString => false
  end.

(** [p in s] *)
Fixpoint contains (p s : string) : bool :=
  startswith p s ||
  match s with
  | EmptyString => false
  | String _ s' => contains p s'
  end.

(** [s.endswith(p)]: some tail of [s] is [p]. *)
Fixpoint endswith (p s : string) : bool :=
  match s with
  | EmptyString => match p with EmptyString => true | _ => false end
  | String _ s' => String.eqb p s || endswith p s'
  end.

(** [s.replace(old, new)] for a non-empty [old]: the occurrences of [old]
    are replaced from left to right, without overlap.  [skip] counts the
    characters of a match that are still to be dropped. *)
Fixpoint replace_from (old new : string) (skip : nat) (s : string) : string :=
  match s with
  | EmptyString => EmptyString
  | String c s' =>
      match skip with
      | S k => replace_from old new k s'
      | O =>
          if startswith old s
          then new ++ replace_from old new (String.length old - 1) s'
          else String c (replace_from old new 0 s')
      end
  end.

Definition replace (old new s : string) : string := replace_from old new 0 s.

(** [s.split(sep)[0]]: the text before the first occurrence of [sep], the
    whole of [s] when there is none. *)
Fixpoint split_head (sep s : string) : string :=
  match s with
  | EmptyString => EmptyString
  | String c s' => if startswith sep s then EmptyString else String c (split_head sep s')
  end.

(** [s.lower()] on ASCII letters.  The bytes of other characters are left
    as they are: where Python lower-cases a character outside ASCII into
    ASCII letters, none of them continues a match of the sink name. *)
Definition lower_ascii (c : ascii) : ascii :=
  let n := nat_of_ascii c in
  if ((65 <=? n)%nat && (n <=? 90)%nat)%bool then ascii_of_nat (n + 32) else c.

Fixpoint lower (s : string) : string :=
  match s with
  | EmptyString => EmptyString
  | String c s' => String (lower_ascii c) (lower s')
  end.

(** Truth value of a [str]: empty is false. *)
Definition truthy (s : string) : bool :=
  match s with EmptyString => false | _ => true end.

End Str.

(** The musical-note character U+1F3B5 as its four UTF-8 bytes. *)
Definition note : string :=
  String (ascii_of_nat 240) (String (ascii_of_nat 159)
    (String (ascii_of_nat 142) (String (ascii_of_nat 181) EmptyString))).

(** The label prefix ["🎵 "]. *)
Definition note_sp : string := note ++ " ".

(** [os.path.basename(path)]: what follows the last slash. *)
Fixpoint basename (p : string) : string :=
  match p with
  | EmptyString => EmptyString
  | String c p' =>
      if Str.contains "/" p' then basename p'
      else if Ascii.eqb c "/" then p' else p
  end.

(** Truth value of an optional [str] ([None] and [""] are false). *)
Definition truthy_opt (k : option string) : bool :=
  match k with Some s => Str.truthy s | None => false end.

(** ** Python dictionaries with [str] keys

    Insertion-ordered, as [dict] is: assigning to a key that is present
    keeps its position, a fresh key goes last. *)

Module Dict.
Section Dict.
Variable V : Type.

Definition t := list (string * V).

(** [d.get(k)] *)
Fixpoint get (k : string) (d : t) : option V :=
  match d with
  | [] => None
  | (k', v) :: d' => if String.eqb k k' then Some v else get k d'
  end.

(** [k in d] *)
Definition mem (k : string) (d : t) : bool :=
  match get k d with Some _ => true | None => false end.

(** [d[k] = v] *)
Fixpoint set (k : string) (v : V) (d : t) : t :=
  match d with
  | [] => [(k, v)]
  | (k', v') :: d' =>
      if String.eqb k k' then (k, v) :: d' else (k', v') :: set k v d'
  end.

(** [d.pop(k, None)] and [del d[k]] for a key that is present. *)
Definition pop (k : string) (d : t) : t :=
  filter (fun kv => negb (String.eqb k (fst kv))) d.

Definition keys (d : t) : list string := map fst d.
Definition values (d : t) : list V := map snd d.

(** Keys of a dictionary are pairwise distinct. *)
Definition wf (d : t) : Prop := NoDup (keys d).
End Dict.
End Dict.

(** ** Data *)

(** A value of [self.sounds]: [{"path": ..., "key": ...}]. *)
Record entry := { path : string; key : option string }.

(** One record of the persisted array ["sounds"]. *)
Record srecord := { r_name : string; r_path : string; r_key : option string }.

(** The [QSettings] array: the stored size and the slots [sounds/1..].
    Slots past the size stay in the backend but are not read. *)
Record qsettings := { arr_size : nat; arr_slots : list srecord }.

(** A device of [sd.query_devices()]; only its name is read. *)
Record device := { dev_name : string }.

(** Decoded audio: the mono samples [load_audio] returns.  Their values
    play no part below. *)
Definition samples := list nat.

(** A running output stream. *)
Record stream := { st_device : nat; st_data : samples }.

(** A binding installed by [keyboard.add_hotkey]: its handle, its combo and
    the sound name captured by the callback [lambda n=name: ...]. *)
Record hook := { hk_id : nat; hk_combo : string; hk_name : string }.

(** State of the [keyboard] module. *)
Record kbd := { hooks : list hook; next_id : nat }.

Inductive exn :=
| KeyError (k : string)
| NameError (name : string)
| RuntimeError (msg : string)
| SoundFileError (p : string).

(** Calls into the audio and keyboard libraries, in the order made. *)
Inductive event :=
| EvRead (p : string)
| EvStop
| EvQueryDevices
| EvPlay (dev : nat)
| EvAddHotkey (hid : nat) (combo name : string)
| EvRemoveHotkey (hid : nat)
| EvClearAllHotkeys.

(** What the methods read from outside the process: [os.path.exists],
    [load_audio] ([None] when [sf.read] raises, else the samples and the
    rate) and [sd.query_devices()]. *)
Record env := {
  path_exists : string -> bool;
  load_audio : string -> option (samples * nat);
  query_devices : list device
}.

(** The window, the module globals and the libraries' state. *)
Record world := {
  session : string;
  keyboard : option kbd;
  sounds : Dict.t entry;
  hotkey_ids : Dict.t nat;
  items : list string;
  settings : qsettings;
  streams : list stream;
  accepted : bool;
  log : list event
}.

Definition with_keyboard (k : option kbd) (w : world) : world :=
  {| session := session w; keyboard := k; sounds := sounds w;
     hotkey_ids := hotkey_ids w; items := items w; settings := settings w;
     streams := streams w; accepted := accepted w; log := log w |}.

Definition with_sounds (d : Dict.t entry) (w : world) : world :=
  {| session := session w; keyboard := keyboard w; sounds := d;
     hotkey_ids := hotkey_ids w; items := items w; settings := settings w;
     streams := streams w; accepted := accepted w; log := log w |}.

Definition with_hotkey_ids (d : Dict.t nat) (w : world) : world :=
  {| session := session w; keyboard := keyboard w; sounds := sounds w;
     hotkey_ids := d; items := items w; settings := settings w;
     streams := streams w; accepted := accepted w; log := log w |}.

Definition with_items (l : list string) (w : world) : world :=
  {| session := session w; keyboard := keyboard w; sounds := sounds w;
     hotkey_ids := hotkey_ids w; items := l; settings := settings w;
     streams := streams w; accepted := accepted w; log := log w |}.

Definition with_settings (q : qsettings) (w : world) : world :=
  {| session := session w; keyboard := keyboard w; sounds := sounds w;
     hotkey_ids := hotkey_ids w; items := items w; settings := q;
     streams := streams w; accepted := accepted w; log := log w |}.

Definition with_streams (l : list stream) (w : world) : world :=
  {| session := session w; keyboard := keyboard w; sounds := sounds w;
     hotkey_ids := hotkey_ids w; items := items w; settings := settings w;
     streams := l; accepted := accepted w; log := log w |}.

Definition with_accepted (b : bool) (w : world) : world :=
  {| session := session w; keyboard := keyboard w; sounds := sounds w;
     hotkey_ids := hotkey_ids w; items := items w; settings := settings w;
     streams := streams w; accepted := b; log := log w |}.

Definition with_log (l : list event) (w : world) : world :=
  {| session := session w; keyboard := keyboard w; sounds := sounds w;
     hotkey_ids := hotkey_ids w; items := items w; settings := settings w;
     streams := streams w; accepted := accepted w; log := l |}.

(** ** The monad of methods: state, with exceptions that keep the state *)

Inductive result (A : Type) := Val (a : A) | Raise (e : exn).
Arguments Raise {A} e.

Definition M (A : Type) := world -> result A * world.

Definition ret {A} (a : A) : M A := fun w => (Val a, w).

Definition bind {A B} (m : M A) (f : A -> M B) : M B :=
  fun w => match m w with
           | (Val a, w') => f a w'
           | (Raise e, w') => (Raise e, w')
           end.

Definition raise {A} (e : exn) : M A := fun w => (Raise e, w).
Definition get : M world := fun w => (Val w, w).
Definition modify (f : world -> world) : M unit := fun w => (Val tt, f w).
Definition emit (e : event) : M unit := modify (fun w => with_log (log w ++ [e]) w).

Notation "x <- m ;; k" := (bind m (fun x => k))
  (at level 61, m at next level, right associativity).
Notation "m ;; k" := (bind m (fun _ => k))
  (at level 61, right associativity).

Fixpoint for_each {A} (f : A -> M unit) (l : list A) : M unit :=
  match l with
  | [] => ret tt
  | x :: l' => f x ;; for_each f l'
  end.

Definition is_x11 (w : world) : bool := String.eqb (session w) "x11".

(** ** The libraries the program calls *)

(** Looking up the global name [keyboard]: bound only when the module was
    imported. *)
Definition the_keyboard : M kbd :=
  fun w => match keyboard w with
           | Some k => (Val k, w)
           | None => (Raise (NameError "keyboard"), w)
           end.

(** [keyboard.add_hotkey(combo, callback)]: installs a binding and returns
    its handle; every combination is taken as one the library accepts. *)
Definition kb_add_hotkey (combo name : string) : M nat :=
  k <- the_keyboard ;;
  let hid := next_id k in
  modify (with_keyboard
            (Some {| hooks := hooks k ++ [{| hk_id := hid; hk_combo := combo; hk_name := name |}];
                     next_id := S hid |})) ;;
  emit (EvAddHotkey hid combo name) ;;
  ret hid.

(** [keyboard.remove_hotkey(hid)]: a handle that is not installed raises. *)
Definition kb_remove_hotkey (hid : nat) : M unit :=
  k <- the_keyboard ;;
  if existsb (fun h => Nat.eqb (hk_id h) hid) (hooks k)
  then modify (with_keyboard
                 (Some {| hooks := filter (fun h => negb (Nat.eqb (hk_id h) hid)) (hooks k);
                          next_id := next_id k |})) ;;
       emit (EvRemoveHotkey hid)
  else raise (KeyError "hotkey").

(** [keyboard.clear_all_hotkeys()] *)
Definition kb_clear_all_hotkeys : M unit :=
  k <- the_keyboard ;;
  modify (with_keyboard (Some {| hooks := []; next_id := next_id k |})) ;;
  emit EvClearAllHotkeys.

(** [sd.stop()]: halts whatever is playing; nothing playing is fine. *)
Definition sd_stop : M unit :=
  modify (with_streams []) ;; emit EvStop.

(** [sd.play(data, device=dev, blocking=False)]: starts a stream and
    returns at once. *)
Definition sd_play (data : samples) (dev : nat) : M unit :=
  modify (fun w => with_streams (streams w ++ [{| st_device := dev; st_data := data |}]) w) ;;
  emit (EvPlay dev).

(** ** Labels of the list widget *)

(** The text of an item: [f"🎵 {name}"], followed by [f" [{key}]"] when
    the entry has a hotkey. *)
Definition label (name : string) (k : option string) : string :=
  match k with
  | Some c => if Str.truthy c then note_sp ++ name ++ " [" ++ c ++ "]" else note_sp ++ name
  | None => note_sp ++ name
  end.

(** [item.text().replace("🎵 ", "").split(" [")[0]] *)
Definition parse_name (text : string) : string :=
  Str.split_head " [" (Str.replace note_sp "" text).

(** [self.list.currentItem()]: the selected row and its text. *)
Definition currentItem (cur : option nat) (w : world) : option (nat * string) :=
  match cur with
  | Some i => option_map (fun t => (i, t)) (nth_error (items w) i)
  | None => None
  end.

Definition takeItem (i : nat) (l : list string) : list string :=
  firstn i l ++ skipn (S i) l.

Definition setText (i : nat) (t : string) (l : list string) : list string :=
  firstn i l ++ t :: skipn (S i) l.

(** ** Methods of [SoundboardWindow] *)

(** Writing the three values of slot [i] after [setArrayIndex(i)]. *)
Definition set_slot (i : nat) (r : srecord) (slots : list srecord) : list srecord :=
  firstn i slots ++ r :: skipn (S i) slots.

Fixpoint write_from (i : nat) (d : Dict.t entry) (slots : list srecord) : list srecord :=
  match d with
  | [] => slots
  | (name, data) :: d' =>
      write_from (S i) d'
        (set_slot i {| r_name := name; r_path := path data; r_key := key data |} slots)
  end.

(** [save_sounds]: [beginWriteArray] without a size, so [endArray] stores
    the number of indexes written. *)
Definition save_sounds : M unit :=
  modify (fun w =>
    with_settings {| arr_size := length (sounds w);
                     arr_slots := write_from 0 (sounds w) (arr_slots (settings w)) |} w).

(** The test [path and os.path.exists(path)] of [load_sounds]. *)
Definition loadable (E : env) (r : srecord) : bool :=
  Str.truthy (r_path r) && path_exists E (r_path r).

(** The body of the loop of [load_sounds], for the record read. *)
Definition load_rec (E : env) (r : srecord) : M unit :=
  if loadable E r
  then modify (fun w => with_sounds
                 (Dict.set (r_name r) {| path := r_path r; key := r_key r |} (sounds w)) w) ;;
       modify (fun w => with_items (items w ++ [label (r_name r) (r_key r)]) w)
  else ret tt.

(** One round of the loop of [load_sounds]; a slot that was never written
    reads as [None], which fails the test on [path]. *)
Definition load_one (E : env) (i : nat) : M unit :=
  w <- get ;;
  match nth_error (arr_slots (settings w)) i with
  | Some r => load_rec E r
  | None => ret tt
  end.

Definition load_sounds (E : env) : M unit :=
  modify (with_items []) ;;
  modify (with_sounds []) ;;
  w <- get ;;
  for_each (load_one E) (seq 0 (arr_size (settings w))).

(** [picked] is what the file dialog returned, empty when cancelled. *)
Definition add_sound (picked : string) : M unit :=
  if negb (Str.truthy picked) then ret tt
  else
    let name := basename picked in
    modify (fun w => with_sounds (Dict.set name {| path := picked; key := None |} (sounds w)) w) ;;
    modify (fun w => with_items (items w ++ [(note_sp ++ name)%string]) w) ;;
    save_sounds.

(** Lines 163-165: drop the binding of [name], if it has one. *)
Definition unbind (name : string) : M unit :=
  w <- get ;;
  match Dict.get name (hotkey_ids w) with
  | Some hid =>
      kb_remove_hotkey hid ;;
      modify (fun w => with_hotkey_ids (Dict.pop name (hotkey_ids w)) w)
  | None => ret tt
  end.

(** Lines 163-169: what [delete_sound] does once row [i] gave [name]. *)
Definition delete_item (i : nat) (name : string) : M unit :=
  unbind name ;;
  modify (fun w => with_sounds (Dict.pop name (sounds w)) w) ;;
  modify (fun w => with_items (takeItem i (items w)) w) ;;
  save_sounds.

Definition delete_sound (cur : option nat) : M unit :=
  w <- get ;;
  match currentItem cur w with
  | None => ret tt
  | Some (i, text) => delete_item i (parse_name text)
  end.

Definition register_one (ne : string * entry) : M unit :=
  let (name, data) := ne in
  match key data with
  | Some c =>
      if Str.truthy c
      then hid <- kb_add_hotkey c name ;;
           modify (fun w => with_hotkey_ids (Dict.set name hid (hotkey_ids w)) w)
      else ret tt
  | None => ret tt
  end.

Definition register_hotkeys : M unit :=
  w <- get ;;
  for_each kb_remove_hotkey (Dict.values (hotkey_ids w)) ;;
  modify (with_hotkey_ids []) ;;
  w <- get ;;
  for_each register_one (sounds w).

(** The outcome of [HotkeyDialog]: what [exec()] returned and the [key]
    attribute ([None] unless a combination was applied). *)
Record dialog := { dlg_exec : bool; dlg_key : option string }.

(** Lines 178-183: what [assign_hotkey] does once row [i] gave [name]. *)
Definition assign_item (i : nat) (name : string) (dlg : dialog) : M unit :=
  w <- get ;;
  (if is_x11 w then ret tt else raise (NameError "HotkeyDialog")) ;;
  if dlg_exec dlg && truthy_opt (dlg_key dlg)
  then
    match Dict.get name (sounds w) with
    | Some e =>
        modify (fun w => with_sounds
                  (Dict.set name {| path := path e; key := dlg_key dlg |} (sounds w)) w)
    | None => raise (KeyError name)
    end ;;
    modify (fun w => with_items (setText i (label name (dlg_key dlg)) (items w)) w) ;;
    save_sounds ;;
    register_hotkeys
  else ret tt.

Definition assign_hotkey (cur : option nat) (dlg : dialog) : M unit :=
  w <- get ;;
  match currentItem cur w with
  | None => ret tt
  | Some (i, text) => assign_item i (parse_name text) dlg
  end.

Fixpoint find_from (i : nat) (devs : list device) : option nat :=
  match devs with
  | [] => None
  | dev :: rest =>
      if Str.contains "soundboard_internal" (Str.lower (dev_name dev))
      then Some i
      else find_from (S i) rest
  end.

Definition find_sb_sink (E : env) : M nat :=
  emit EvQueryDevices ;;
  match find_from 0 (query_devices E) with
  | Some i => ret i
  | None => raise (RuntimeError "Soundboard sink not found")
  end.

Definition play_sound (E : env) (name : string) : M unit :=
  w <- get ;;
  match Dict.get name (sounds w) with
  | None => raise (KeyError name)
  | Some e =>
      emit (EvRead (path e)) ;;
      match load_audio E (path e) with
      | None => raise (SoundFileError (path e))
      | Some (data, sr) =>
          sd_stop ;;
          SB_SINK <- find_sb_sink E ;;
          sd_play data SB_SINK
      end
  end.

Definition play_selected (E : env) (cur : option nat) : M unit :=
  w <- get ;;
  match currentItem cur w with
  | None => ret tt
  | Some (_, text) => play_sound E (parse_name text)
  end.

Definition closeEvent : M unit :=
  sd_stop ;;
  kb_clear_all_hotkeys ;;
  modify (with_accepted true).

(** The process before [SoundboardWindow()] runs: [xdg] is the value of
    [XDG_SESSION_TYPE] (empty when unset), [q] what the settings backend
    holds.  [keyboard] is imported under x11 only. *)
Definition fresh (xdg : string) (q : qsettings) : world :=
  let sess := Str.lower xdg in
  {| session := sess;
     keyboard := if String.eqb sess "x11" then Some {| hooks := []; next_id := 0 |} else None;
     sounds := []; hotkey_ids := []; items := []; settings := q;
     streams := []; accepted := false; log := [] |}.

(** [SoundboardWindow.__init__], after the attributes are set. *)

Definition init (E : env) : M unit :=
  load_sounds E ;;
  w <- get ;;
  if is_x11 w then register_hotkeys else ret tt.

(** ** What drives the window *)

(** The callbacks the keyboard hook runs for a combination. *)
Definition fired (combo : string) (w : world) : list string :=
  match keyboard w with
  | Some k => map hk_name (filter (fun h => String.eqb (hk_combo h) combo) (hooks k))
  | None => []
  end.

Definition trigger (E : env) (combo : string) : M unit :=
  w <- get ;;
  for_each (play_sound E) (fired combo w).

Inductive ui_event :=
| ClickAdd (picked : string)
| ClickDelete (cur : option nat)
| ClickHotkey (cur : option nat) (dlg : dialog)
| ClickPlay (cur : option nat)
| ClickStop
| PressCombo (combo : string).

(** The signal connections of [init_ui]; the hotkey button is connected
    under x11 only. *)
Definition handle (E : env) (ev : ui_event) : M unit :=
  match ev with
  | ClickAdd picked => add_sound picked
  | ClickDelete cur => delete_sound cur
  | ClickHotkey cur dlg =>
      w <- get ;; if is_x11 w then assign_hotkey cur dlg else ret tt
  | ClickPlay cur => play_selected E cur
  | ClickStop => sd_stop
  | PressCombo combo => trigger E combo
  end.

(** The state after a method has run, whether it returned or raised. *)
Definition exec {A} (m : M A) (w : world) : world := snd (m w).

(** The states the window goes through while it is open: construction,
    then any events, each in the environment of its moment.  [closeEvent]
    comes last and is not an event of the open window. *)
Inductive reachable : world -> Prop :=
| reach_init sess q E : reachable (exec (init E) (fresh sess q))
| reach_step w E ev : reachable w -> reachable (exec (handle E ev) w).

(** ** Auxiliary notions *)

(** Whether a device is the reserved sink, as [find_sb_sink] tests it. *)
Definition is_sb_sink (dev : device) : bool :=
  Str.contains "soundboard_internal" (Str.lower (dev_name dev)).

(** No occurrence of [old] begins inside the [s] part of [s ++ t]. *)
Fixpoint clean (old s t : string) : bool :=
  match s with
  | EmptyString => true
  | String _ s' => negb (Str.startswith old (s ++ t)) && clean old s' t
  end.

(** The library calls a method makes from [w]. *)
Definition events_of {A} (m : M A) (w : world) : list event :=
  skipn (length (log w)) (log (snd (m w))).

(** The handle table agrees with the installed bindings. *)
Definition hook_binding (h : hook) : string * nat := (hk_name h, hk_id h).

Definition tracked (w : world) : Prop :=
  match keyboard w with
  | Some k =>
      is_x11 w = true /\
      map hook_binding (hooks k) = hotkey_ids w /\
      NoDup (map hk_id (hooks k)) /\
      Forall (fun h => hk_id h < next_id k) (hooks k)
  | None => is_x11 w = false /\ hotkey_ids w = []
  end.

Definition inv (w : world) : Prop :=
  tracked w /\ Dict.wf (sounds w) /\ Dict.wf (hotkey_ids w) /\ length (streams w) <= 1.

(** The sound names that have a live binding. *)
Definition bound_names (w : world) : list string :=
  match keyboard w with
  | Some k => map hk_name (hooks k)
  | None => []
  end.

(** The names of the entries with a hotkey. *)
Definition keyed_names (w : world) : list string :=
  map fst (filter (fun ne => truthy_opt (key (snd ne))) (sounds w)).

(** A method that leaves [w] and its outcome in relation [R]. *)
Definition stable (R : world -> world -> Prop) {A} (m : M A) : Prop :=
  forall w, R w (snd (m w)).

(** The part of the state the hotkey layer owns. *)
Definition same_hotkeys (w w' : world) : Prop :=
  session w' = session w /\ keyboard w' = keyboard w /\ hotkey_ids w' = hotkey_ids w.

Definition same_sounds (w w' : world) : Prop := sounds w' = sounds w.

(** Everything but the keyboard module and the record of calls. *)
Definition same_window (w w' : world) : Prop :=
  session w' = session w /\ sounds w' = sounds w /\ hotkey_ids w' = hotkey_ids w /\
  items w' = items w /\ settings w' = settings w /\ streams w' = streams w /\
  accepted w' = accepted w.

(** The window's attributes other than the handle table. *)
Definition same_store (w w' : world) : Prop :=
  session w' = session w /\ sounds w' = sounds w /\ items w' = items w /\
  settings w' = settings w /\ streams w' = streams w /\ accepted w' = accepted w.

(** A persisted record as a store entry, and back. *)
Definition entry_of (r : srecord) : string * entry :=
  (r_name r, {| path := r_path r; key := r_key r |}).

Definition record_of (ne : string * entry) : srecord :=
  {| r_name := fst ne; r_path := path (snd ne); r_key := key (snd ne) |}.

(** The records the array holds: the slots below its size. *)
Definition persisted (q : qsettings) : list srecord :=
  firstn (arr_size q) (arr_slots q).



(** ** Scenarios *)

(** A host with the reserved sink as its second device, where every path
    exists and every file but ["/m/broken.wav"] decodes. *)
Definition demo_env : env :=
  {| path_exists := fun p => Str.truthy p;
     load_audio := fun p => if String.eqb p "/m/broken.wav" then None else Some ([1; 2; 3], 4000);
     query_devices := [ {| dev_name := "default_output" |};
                        {| dev_name := "soundboard_internal_42" |} ] |}.

(** Settings that hold ["clap.wav"] with the hotkey ["ctrl+shift+w"]. *)
Definition demo_settings : qsettings :=
  {| arr_size := 1;
     arr_slots := [ {| r_name := "clap.wav"; r_path := "/m/clap.wav";
                       r_key := Some "ctrl+shift+w" |} ] |}.

Definition no_settings : qsettings := {| arr_size := 0; arr_slots := [] |}.

(** The window opened under x11 on [demo_settings]. *)
Definition demo_x11 : world := exec (init demo_env) (fresh "x11" demo_settings).

(** The same under wayland. *)
Definition demo_wayland : world := exec (init demo_env) (fresh "wayland" demo_settings).

(** [demo_x11] after a file with the same base name was added. *)
Definition demo_readded : world :=
  exec (handle demo_env (ClickAdd "/other/clap.wav")) demo_x11.

(** A window whose only sound has a bracket in its name. *)
Definition demo_bracket : world :=
  exec (handle demo_env (ClickAdd "/m/a [1].wav"))
       (exec (init demo_env) (fresh "x11" no_settings)).

(** A window playing ["clap.wav"] whose other sound does not decode. *)
Definition demo_playing : world :=
  exec (handle demo_env (ClickPlay (Some 0)))
       (exec (handle demo_env (ClickAdd "/m/broken.wav")) demo_x11).

(** ** The hotkey dialog *)








(** ** Bindings by combination *)

(** The installed bindings as name and combination. *)
Definition bindings (w : world) : list (string * string) :=
  match keyboard w with
  | Some k => map (fun h => (hk_name h, hk_combo h)) (hooks k)
  | None => []
  end.

(** The bindings the second loop of [register_hotkeys] makes for [d]. *)
Definition keyed_bindings (d : Dict.t entry) : list (string * string) :=
  flat_map (fun ne => match key (snd ne) with
                      | Some c => if Str.truthy c then [(fst ne, c)] else []
                      | None => []
                      end) d.

(** The names of the entries whose hotkey is [combo]. *)
Definition keyed_by (combo : string) (d : Dict.t entry) : list string :=
  map fst (filter (fun ne => match key (snd ne) with
                             | Some c => Str.truthy c && String.eqb c combo
                             | None => false
                             end) d).

(** Every live binding belongs to an entry of the store. *)
Definition bound_in_store (w : world) : Prop :=
  forall n, In n (bound_names w) -> Dict.get n (sounds w) <> None.

(** The settings hold the store as it is. *)
Definition saved (w : world) : Prop :=
  persisted (settings w) = map record_of (sounds w).

(** The list shows the store, item by item. *)
Definition listed (w : world) : Prop :=
  items w = map (fun ne => label (fst ne) (key (snd ne))) (sounds w).

(** Everything but the audio streams and the record of calls. *)
Definition same_but_audio (w w' : world) : Prop :=
  session w' = session w /\ keyboard w' = keyboard w /\ sounds w' = sounds w /\
  hotkey_ids w' = hotkey_ids w /\ items w' = items w /\ settings w' = settings w /\
  accepted w' = accepted w.

(** The bindings installed in the keyboard module. *)
Definition live_hooks (w : world) : list hook :=
  match keyboard w with
  | Some k => hooks k
  | None => []
  end.

(** A host where every file decodes to a sample that tells its path
    apart by length. *)
Definition studio_env : env :=
  {| path_exists := fun p => Str.truthy p;
     load_audio := fun p => Some ([String.length p], 4000);
     query_devices := [ {| dev_name := "default_output" |};
                        {| dev_name := "Soundboard_Internal" |} ] |}.

(** Settings in which two sounds carry the same hotkey. *)
Definition shared_settings : qsettings :=
  {| arr_size := 2;
     arr_slots := [ {| r_name := "clap.wav"; r_path := "/m/clap.wav"; r_key := Some "f9" |};
                    {| r_name := "horn.ogg"; r_path := "/m/sfx/horn.ogg"; r_key := Some "f9" |} ] |}.

(** The window opened under x11 on [shared_settings]. *)
Definition demo_shared : world := exec (init studio_env) (fresh "x11" shared_settings).

(** The entry under [n] is what it was. *)
Definition keeps_entry (n : string) (w w' : world) : Prop :=
  Dict.get n (sounds w') = Dict.get n (sounds w).

(** [demo_x11] after the hotkey of its sound was changed to ["f2"]. *)
Definition demo_assigned : world :=
  exec (handle demo_env (ClickHotkey (Some 0) {| dlg_exec := true; dlg_key := Some "f2" |}))
       demo_x11.

(** ** Reading the record of calls *)

(** Going through the calls with the knowledge of whether a stream plays:
    [sd.stop()] ends it, [sd.play] starts one and is refused ([None])
    while one plays; the other calls change nothing. *)
Fixpoint scan (playing : bool) (l : list event) : option bool :=
  match l with
  | [] => Some playing
  | EvStop :: l' => scan false l'
  | EvPlay _ :: l' => if playing then None else scan true l'
  | _ :: l' => scan playing l'
  end.

(** Whether a stream plays in [w]. *)
Definition playing (w : world) : bool :=
  match streams w with [] => false | _ => true end.

(** The calls made so far never started a stream over another, and they
    account for what plays now. *)
Definition in_turn (w : world) : Prop := scan false (log w) = Some (playing w).

Definition keeps_turn (w w' : world) : Prop := in_turn w -> in_turn w'.

(** Every entry of the store is in the settings. *)
Definition all_saved (w : world) : Prop :=
  forall ne, In ne (sounds w) -> In (record_of ne) (persisted (settings w)).

(** * Properties *)

(** ** Sink resolution *)

Lemma find_from_some (devs : list device) : forall base i,
  find_from base devs = Some i ->
  base <= i /\
  (exists dev, nth_error devs (i - base) = Some dev /\ is_sb_sink dev = true) /\
  (forall j dev, j < i - base -> nth_error devs j = Some dev -> is_sb_sink dev = false).
Proof.
  induction devs as [|d ds IH]; intros base i H; simpl in H; [discriminate|].
  fold (is_sb_sink d) in H.
  destruct (is_sb_sink d) eqn:Hd.
  - injection H as <-. rewrite Nat.sub_diag. split; [lia|]. split.
    + exists d. split; [reflexivity|assumption].
    + intros j dev Hj. lia.
  - apply IH in H. destruct H as (Hle & (dev & Hn & Hm) & Hfirst).
    split; [lia|]. split.
    + exists dev. replace (i - base) with (S (i - S base)) by lia. simpl. auto.
    + intros j dev' Hj Hnth. destruct j as [|j]; simpl in Hnth.
      * injection Hnth as <-. assumption.
      * apply (Hfirst j); [lia|assumption].
Qed.

Lemma find_from_none (devs : list device) : forall base,
  find_from base devs = None -> forall dev, In dev devs -> is_sb_sink dev = false.
Proof.
  induction devs as [|d ds IH]; intros base H dev Hin; simpl in *; [contradiction|].
  fold (is_sb_sink d) in H.
  destruct (is_sb_sink d) eqn:Hd; [discriminate|].
  destruct Hin as [<-|Hin]; [assumption|]. eapply IH; eauto.
Qed.

(** C4: [find_sb_sink] returns the index of the first device of the
    enumeration whose lower-cased name contains ["soundboard_internal"],
    and raises [RuntimeError("Soundboard sink not found")] when no device
    matches; for the names [default_output, soundboard_internal_42] it
    returns 1, for [default_output] alone it raises.  The state is left as
    it was, up to the record of the enumeration. *)
Theorem find_sb_sink_first_match :
  (forall (E : env) (w : world),
     match find_sb_sink E w with
     | (Val i, w') =>
         (exists dev, nth_error (query_devices E) i = Some dev /\ is_sb_sink dev = true) /\
         (forall j dev, j < i -> nth_error (query_devices E) j = Some dev ->
                        is_sb_sink dev = false) /\
         w' = with_log (log w ++ [EvQueryDevices]) w
     | (Raise e, w') =>
         e = RuntimeError "Soundboard sink not found" /\
         (forall dev, In dev (query_devices E) -> is_sb_sink dev = false) /\
         w' = with_log (log w ++ [EvQueryDevices]) w
     end) /\
  (forall ex la w,
     fst (find_sb_sink {| path_exists := ex; load_audio := la;
                          query_devices := [ {| dev_name := "default_output" |};
                                             {| dev_name := "soundboard_internal_42" |} ] |} w)
     = Val 1) /\
  (forall ex la w,
     fst (find_sb_sink {| path_exists := ex; load_audio := la;
                          query_devices := [ {| dev_name := "default_output" |} ] |} w)
     = Raise (RuntimeError "Soundboard sink not found")).
Proof.
  split; [|split; intros; reflexivity].
  intros E w. unfold find_sb_sink, bind, emit, modify, ret, raise.
  destruct (find_from 0 (query_devices E)) as [i|] eqn:Hf.
  - apply find_from_some in Hf. rewrite Nat.sub_0_r in Hf.
    destruct Hf as (_ & Hex & Hfirst). repeat split; assumption.
  - repeat split. eapply find_from_none; eassumption.
Qed.

(** ** Labels and names *)

Module StrFacts.
Import Str.

Lemma append_nil_r (s : string) : (s ++ "")%string = s.
Proof. induction s; simpl; congruence. Qed.

Lemma startswith_app (p : string) : forall u v,
  startswith p u = true -> startswith p (u ++ v) = true.
Proof.
  induction p as [|a p IH]; intros [|b u] v H; simpl in *; try easy.
  apply andb_true_iff in H as [-> H]. simpl. auto.
Qed.

Lemma startswith_self_app (p t : string) : startswith p (p ++ t) = true.
Proof. induction p; simpl; [reflexivity|]. now rewrite Ascii.eqb_refl. Qed.

Lemma clean_nil (old : string) : forall s,
  contains old s = false -> clean old s "" = true.
Proof.
  induction s as [|c s IH]; [reflexivity|].
  cbn [contains clean]. intros H. apply orb_false_iff in H as [H1 H2].
  rewrite append_nil_r, H1. simpl. auto.
Qed.

Lemma replace_clean (old new : string) : forall s t,
  clean old s t = true ->
  replace_from old new 0 (s ++ t) = (s ++ replace_from old new 0 t)%string.
Proof.
  induction s as [|c s IH]; intros t H; [reflexivity|].
  cbn [clean] in H. apply andb_true_iff in H as [H1 H2]. apply negb_true_iff in H1.
  change (String c s ++ t)%string with (String c (s ++ t)) in *.
  cbn [replace_from]. rewrite H1, IH by assumption. reflexivity.
Qed.

Lemma replace_skip (old new : string) : forall u t,
  replace_from old new (String.length u) (u ++ t) = replace_from old new 0 t.
Proof.
  induction u as [|c u IH]; intros t; simpl; [reflexivity|apply IH].
Qed.

Lemma replace_match (old new t : string) :
  truthy old = true ->
  replace old new (old ++ t) = (new ++ replace old new t)%string.
Proof.
  destruct old as [|a old']; [discriminate|]. intros _.
  unfold replace. simpl.
  rewrite Ascii.eqb_refl, startswith_self_app. simpl.
  now rewrite Nat.sub_0_r, replace_skip.
Qed.

Lemma split_clean (sep : string) : forall s t,
  clean sep s t = true ->
  split_head sep (s ++ t) = (s ++ split_head sep t)%string.
Proof.
  induction s as [|c s IH]; intros t H; [reflexivity|].
  cbn [clean] in H. apply andb_true_iff in H as [H1 H2]. apply negb_true_iff in H1.
  change (String c s ++ t)%string with (String c (s ++ t)) in *.
  cbn [split_head]. rewrite H1, IH by assumption. reflexivity.
Qed.

Lemma split_at (sep t : string) :
  startswith sep t = true -> split_head sep t = "".
Proof. destruct t as [|c t]; simpl; [reflexivity|]. now intros ->. Qed.

Lemma split_head_prefix (sep : string) : forall s,
  exists rest, s = (split_head sep s ++ rest)%string.
Proof.
  induction s as [|c s [rest IH]]; simpl.
  - now exists "".
  - destruct (startswith sep (String c s)).
    + now exists (String c s).
    + exists rest. simpl. now rewrite <- IH.
Qed.

Lemma split_head_free (a : ascii) (sep' : string) : forall s,
  contains (String a sep') (split_head (String a sep') s) = false.
Proof.
  induction s as [|c s IH]; [reflexivity|].
  cbn [split_head].
  destruct (startswith (String a sep') (String c s)) eqn:Hs; [reflexivity|].
  cbn [contains]. rewrite IH, orb_false_r.
  destruct (startswith (String a sep') (String c (split_head (String a sep') s))) eqn:Hp;
    [|reflexivity].
  destruct (split_head_prefix (String a sep') s) as [rest Hrest].
  apply startswith_app with (v := rest) in Hp.
  simpl append in Hp. rewrite <- Hrest in Hp. congruence.
Qed.

Ltac split_eqs H :=
  repeat (let E := fresh "E" in apply andb_true_iff in H as [E H]).

Ltac absurd_eq :=
  match goal with
  | E : _ = true |- _ => vm_compute in E; discriminate E
  end.

(** An occurrence of ["🎵 "] that begins in [u], when [" ["] follows [u]:
    it lies within [u], or [u] is the note itself and takes the space. *)
Lemma note_sp_at (u rest : string) :
  startswith note_sp (u ++ " [" ++ rest) = true ->
  startswith note_sp u = true \/ u = note.
Proof.
  destruct u as [|c1 [|c2 [|c3 [|c4 [|c5 u]]]]]; cbn -[Ascii.eqb]; intros H;
    try (left; exact H); split_eqs H; try absurd_eq.
  right. unfold note.
  repeat match goal with
         | E : Ascii.eqb _ _ = true |- _ => apply Ascii.eqb_eq in E; subst
         end.
  reflexivity.
Qed.

Lemma clean_note (rest : string) : forall name,
  contains note_sp name = false ->
  endswith note name = false ->
  clean note_sp name (" [" ++ rest) = true.
Proof.
  induction name as [|c s IH]; [reflexivity|].
  cbn [contains endswith clean]. intros Hc He.
  apply orb_false_iff in Hc as [Hc1 Hc2].
  apply orb_false_iff in He as [He1 He2].
  rewrite IH by assumption. rewrite andb_true_r. apply negb_true_iff.
  destruct (startswith note_sp (String c s ++ " [" ++ rest)) eqn:Hs; [|reflexivity].
  apply note_sp_at in Hs as [Hs|Hs]; [congruence|].
  rewrite Hs in He1. vm_compute in He1. discriminate.
Qed.

(** An occurrence of [" ["] that begins in [u] lies within [u], when what
    follows [u] is empty or begins with a space. *)
Lemma bracket_at (c : ascii) (u t : string) :
  t = "" \/ startswith " " t = true ->
  startswith " [" (String c u ++ t) = true ->
  startswith " [" (String c u) = true.
Proof.
  intros Ht. destruct u as [|c2 u]; cbn -[Ascii.eqb]; intros H; [|exact H].
  destruct Ht as [->|Ht]; [cbn -[Ascii.eqb] in H; now rewrite andb_false_r in H|].
  destruct t as [|d t]; [discriminate|].
  cbn -[Ascii.eqb] in Ht, H. split_eqs Ht. split_eqs H.
  repeat match goal with
         | E : Ascii.eqb _ _ = true |- _ => apply Ascii.eqb_eq in E; subst
         end.
  discriminate.
Qed.

Lemma clean_bracket (t : string) : forall name,
  t = "" \/ startswith " " t = true ->
  contains " [" name = false ->
  clean " [" name t = true.
Proof.
  intros name Ht. induction name as [|c s IH]; [reflexivity|].
  cbn [contains clean]. intros Hc.
  apply orb_false_iff in Hc as [Hc1 Hc2].
  rewrite IH by assumption. rewrite andb_true_r. apply negb_true_iff.
  destruct (startswith " [" (String c s ++ t)) eqn:Hs; [|reflexivity].
  apply bracket_at in Hs; [congruence|assumption].
Qed.

Lemma replace_bracket (r : string) :
  replace note_sp "" (" [" ++ r) = (" [" ++ replace note_sp "" r)%string.
Proof. reflexivity. Qed.

(** Parsing [name] followed by nothing, or by a bracketed hotkey. *)
Lemma parse_body (name t : string) :
  t = "" \/ (exists r, t = (" [" ++ r)%string /\ endswith note name = false) ->
  contains " [" name = false ->
  contains note_sp name = false ->
  parse_name (note_sp ++ name ++ t) = name.
Proof.
  intros Ht Hb Hn. unfold parse_name.
  rewrite replace_match by reflexivity. cbn [append].
  destruct Ht as [->|(r & -> & He)].
  - rewrite append_nil_r. unfold replace.
    rewrite <- (append_nil_r name) at 1.
    rewrite replace_clean by (now apply clean_nil). cbn [replace_from].
    rewrite split_clean by (apply clean_bracket; auto).
    apply append_nil_r.
  - unfold replace. rewrite replace_clean by (now apply clean_note).
    fold (replace note_sp "" (" [" ++ r)). rewrite replace_bracket.
    rewrite split_clean by (apply clean_bracket; auto).
    rewrite split_at by reflexivity. apply append_nil_r.
Qed.

Lemma parse_label (name : string) (k : option string) :
  contains " [" name = false ->
  contains note_sp name = false ->
  (truthy_opt k = true -> endswith note name = false) ->
  parse_name (label name k) = name.
Proof.
  intros Hb Hn He. unfold label.
  destruct k as [c|]; [destruct (truthy c) eqn:Hc|].
  - apply parse_body; auto. right. exists (c ++ "]")%string. split; [reflexivity|].
    apply He. exact Hc.
  - rewrite <- (append_nil_r name) at 1. apply parse_body; auto.
  - rewrite <- (append_nil_r name) at 1. apply parse_body; auto.
Qed.

(** What [parse_name] returns never contains [" ["]. *)
Lemma parse_name_free (text : string) : contains " [" (parse_name text) = false.
Proof. unfold parse_name. apply split_head_free. Qed.

End StrFacts.

(** C10 (amended): a name containing [" ["] is never recovered from its
    label; a name is recovered when it contains neither [" ["] nor
    ["🎵 "] and, if the label shows a hotkey, does not end with the note
    (every occurrence of ["🎵 "] is removed from the label, not only the
    prefix).  Under that condition delete, hotkey assignment and manual
    play act on the entry the label was built from. *)
Theorem parse_label_roundtrip (name : string) (k : option string) :
  (Str.contains " [" name = true -> parse_name (label name k) <> name) /\
  (Str.contains " [" name = false ->
   Str.contains note_sp name = false ->
   (truthy_opt k = true -> Str.endswith note name = false) ->
   parse_name (label name k) = name /\
   forall (E : env) (w : world) (cur : option nat) (i : nat) (dlg : dialog),
     currentItem cur w = Some (i, label name k) ->
     delete_sound cur w = delete_item i name w /\
     assign_hotkey cur dlg w = assign_item i name dlg w /\
     play_selected E cur w = play_sound E name w).
Proof.
  split.
  - intros Hc Heq.
    pose proof (StrFacts.parse_name_free (label name k)) as Hf.
    rewrite Heq in Hf. congruence.
  - intros Hb Hn He.
    pose proof (StrFacts.parse_label name k Hb Hn He) as Hp.
    split; [exact Hp|].
    intros E w cur i dlg Hcur.
    unfold delete_sound, assign_hotkey, play_selected, bind, get.
    rewrite Hcur, Hp. auto.
Qed.

Lemma parse_label_roundtrip_witness :
  parse_name (label "clap.wav" (Some "ctrl+shift+w")) = "clap.wav" /\
  parse_name (label "a [live].wav" None) <> "a [live].wav".
Proof.
  split.
  - apply (proj2 (parse_label_roundtrip "clap.wav" (Some "ctrl+shift+w")));
      try reflexivity.
  - apply (proj1 (parse_label_roundtrip "a [live].wav" None)). reflexivity.
Defined.

(** C10, as first stated, fails: the name ["🎵 a.wav"] contains no [" ["],
    yet its label parses to ["a.wav"]. *)
Lemma parse_label_note_counterexample :
  ~ (forall (name : string) (k : option string),
       Str.contains " [" name = false -> parse_name (label name k) = name).
Proof.
  intros H. specialize (H (note_sp ++ "a.wav")%string None eq_refl).
  vm_compute in H. discriminate H.
Qed.

(** ** Dictionaries *)

Module DictFacts.
Section DictFacts.
Variable V : Type.
Implicit Types (d : Dict.t V) (k : string) (v : V).

Lemma get_none_iff k d : Dict.get k d = None <-> ~ In k (Dict.keys d).
Proof.
  induction d as [|[k' v'] d IH]; simpl; [tauto|].
  destruct (String.eqb_spec k k') as [->|Hne].
  - split; [discriminate|]. intros H. exfalso. apply H. now left.
  - rewrite IH. split; [intros H [E|E]; [congruence|auto] | tauto].
Qed.

Lemma get_in k v d : Dict.get k d = Some v -> In (k, v) d.
Proof.
  induction d as [|[k' v'] d IH]; simpl; [discriminate|].
  destruct (String.eqb_spec k k') as [->|Hne].
  - intros [= ->]. now left.
  - auto.
Qed.


Lemma get_set_same k v d : Dict.get k (Dict.set k v d) = Some v.
Proof.
  induction d as [|[k' v'] d IH]; simpl.
  - now rewrite String.eqb_refl.
  - destruct (String.eqb_spec k k') as [->|Hne]; simpl.
    + now rewrite String.eqb_refl.
    + destruct (String.eqb_spec k k'); [contradiction|assumption].
Qed.

Lemma get_set_other k k0 v d : k0 <> k -> Dict.get k0 (Dict.set k v d) = Dict.get k0 d.
Proof.
  intros Hne. induction d as [|[k' v'] d IH]; simpl.
  - destruct (String.eqb_spec k0 k); [contradiction|reflexivity].
  - destruct (String.eqb_spec k k') as [->|Hkk']; simpl.
    + destruct (String.eqb_spec k0 k'); [contradiction|reflexivity].
    + now rewrite IH.
Qed.

Lemma set_fresh k v d : Dict.get k d = None -> Dict.set k v d = d ++ [(k, v)].
Proof.
  induction d as [|[k' v'] d IH]; simpl; [reflexivity|].
  destruct (String.eqb_spec k k'); [discriminate|].
  intros H. now rewrite IH.
Qed.

Lemma keys_set k v d :
  Dict.keys (Dict.set k v d) =
  if Dict.mem k d then Dict.keys d else Dict.keys d ++ [k].
Proof.
  unfold Dict.mem. induction d as [|[k' v'] d IH]; simpl; [reflexivity|].
  destruct (String.eqb_spec k k') as [->|Hne]; simpl; [reflexivity|].
  rewrite IH. now destruct (Dict.get k d).
Qed.

Lemma wf_set k v d : Dict.wf d -> Dict.wf (Dict.set k v d).
Proof.
  unfold Dict.wf. intros Hnd. rewrite keys_set. unfold Dict.mem.
  destruct (Dict.get k d) eqn:Hg; [assumption|].
  apply get_none_iff in Hg.
  apply NoDup_rev in Hnd. rewrite <- (rev_involutive (_ ++ _)).
  apply NoDup_rev. rewrite rev_app_distr. simpl. constructor; [|assumption].
  now rewrite <- in_rev.
Qed.

Lemma in_set k v d k0 v0 :
  In (k0, v0) (Dict.set k v d) -> (k0 = k /\ v0 = v) \/ In (k0, v0) d.
Proof.
  induction d as [|[k' v'] d IH]; simpl.
  - intros [[= <- <-]|[]]. now left.
  - destruct (String.eqb_spec k k') as [->|Hne]; simpl.
    + intros [[= <- <-]|H]; auto.
    + intros [H|H]; [auto|]. apply IH in H. tauto.
Qed.


Lemma get_pop_other k k0 d : k0 <> k -> Dict.get k0 (Dict.pop k d) = Dict.get k0 d.
Proof.
  intros Hne. induction d as [|[k' v'] d IH]; simpl; [reflexivity|].
  destruct (String.eqb_spec k k') as [->|Hkk']; simpl.
  - destruct (String.eqb_spec k0 k'); [contradiction|assumption].
  - now rewrite IH.
Qed.

Lemma pop_absent k d : Dict.get k d = None -> Dict.pop k d = d.
Proof.
  induction d as [|[k' v'] d IH]; simpl; [reflexivity|].
  destruct (String.eqb_spec k k'); [discriminate|]. simpl.
  intros H. now rewrite IH.
Qed.

Lemma wf_pop k d : Dict.wf d -> Dict.wf (Dict.pop k d).
Proof.
  unfold Dict.wf, Dict.pop, Dict.keys. induction d as [|[k' v'] d IH]; simpl; [auto|].
  intros Hnd. inversion Hnd as [|? ? Hni Hnd']; subst.
  destruct (String.eqb k k'); simpl; [auto|].
  constructor; [|auto].
  intros Hin. apply Hni. apply in_map_iff in Hin as ([k1 v1] & E & Hin).
  apply filter_In in Hin as [Hin _]. simpl in E. subst.
  change k' with (fst (k', v1)). now apply in_map.
Qed.

End DictFacts.
End DictFacts.

(** ** Framing *)

Section Frame.
Variable R : world -> world -> Prop.
Hypothesis R_refl : forall w, R w w.
Hypothesis R_trans : forall a b c, R a b -> R b c -> R a c.

Lemma stable_ret {A} (a : A) : stable R (ret a).
Proof. intros w. apply R_refl. Qed.

Lemma stable_raise {A} (e : exn) : stable R (@raise A e).
Proof. intros w. apply R_refl. Qed.

Lemma stable_get : stable R get.
Proof. intros w. apply R_refl. Qed.

Lemma stable_the_keyboard : stable R the_keyboard.
Proof. intros w. unfold the_keyboard. destruct (keyboard w); apply R_refl. Qed.

Lemma stable_modify (f : world -> world) :
  (forall w, R w (f w)) -> stable R (modify f).
Proof. intros H w. apply H. Qed.

Lemma stable_bind {A B} (m : M A) (f : A -> M B) :
  stable R m -> (forall a, stable R (f a)) -> stable R (bind m f).
Proof.
  intros Hm Hf w. unfold bind. specialize (Hm w).
  destruct (m w) as [[a|e] w1]; simpl in *; [|assumption].
  eapply R_trans; [eassumption|apply Hf].
Qed.

Lemma stable_for_each {A} (f : A -> M unit) (l : list A) :
  (forall a, stable R (f a)) -> stable R (for_each f l).
Proof.
  intros Hf. induction l as [|a l IH]; simpl.
  - apply stable_ret.
  - apply stable_bind; auto.
Qed.

End Frame.

Ltac frame_step :=
  match goal with
  | |- stable _ (ret _) => apply stable_ret; solve [eauto]
  | |- stable _ (raise _) => apply stable_raise; solve [eauto]
  | |- stable _ get => apply stable_get; solve [eauto]
  | |- stable _ the_keyboard => apply stable_the_keyboard; solve [eauto]
  | |- stable _ (modify _) => apply stable_modify; intros
  | |- stable _ (emit _) => apply stable_modify; intros
  | |- stable _ (bind _ _) => apply stable_bind; [solve [eauto] | | intros]
  | |- stable _ (for_each _ _) =>
      apply stable_for_each; [solve [eauto] | solve [eauto] | intros]
  | |- stable _ (match ?x with _ => _ end) => destruct x
  end.

Lemma same_hotkeys_refl w : same_hotkeys w w.
Proof. now repeat split. Qed.

Lemma same_hotkeys_trans a b c : same_hotkeys a b -> same_hotkeys b c -> same_hotkeys a c.
Proof. unfold same_hotkeys. intuition congruence. Qed.

Lemma same_sounds_refl w : same_sounds w w.
Proof. reflexivity. Qed.

Lemma same_sounds_trans a b c : same_sounds a b -> same_sounds b c -> same_sounds a c.
Proof. unfold same_sounds. congruence. Qed.

#[local] Hint Resolve same_hotkeys_refl same_hotkeys_trans same_sounds_refl
  same_sounds_trans : core.




(** ** The hotkey layer *)

Lemma same_window_refl w : same_window w w.
Proof. now repeat split. Qed.

Lemma NoDup_map_eq {A B} (f : A -> B) (l : list A) x y :
  NoDup (map f l) -> In x l -> In y l -> f x = f y -> x = y.
Proof.
  induction l as [|a l IH]; simpl; [tauto|].
  intros Hnd Hx Hy Hf. inversion Hnd as [|? ? Hni Hnd']; subst.
  destruct Hx as [->|Hx], Hy as [->|Hy]; auto.
  - exfalso. apply Hni. rewrite Hf. now apply in_map.
  - exfalso. apply Hni. rewrite <- Hf. now apply in_map.
Qed.

Lemma filter_all {A} (p : A -> bool) (l : list A) :
  (forall x, In x l -> p x = true) -> filter p l = l.
Proof.
  induction l as [|a l IH]; simpl; [reflexivity|].
  intros H. rewrite (H a) by now left. f_equal. apply IH. auto.
Qed.

Lemma map_filter_swap {A B} (f : A -> B) (p : B -> bool) (l : list A) :
  map f (filter (fun x => p (f x)) l) = filter p (map f l).
Proof.
  induction l as [|a l IH]; simpl; [reflexivity|].
  destruct (p (f a)); simpl; now rewrite IH.
Qed.

Lemma bind_val {A B} (m : M A) (f : A -> M B) w a w' :
  m w = (Val a, w') -> bind m f w = f a w'.
Proof. unfold bind. now intros ->. Qed.

Lemma kb_remove_hotkey_live hid k w :
  keyboard w = Some k ->
  existsb (fun h => Nat.eqb (hk_id h) hid) (hooks k) = true ->
  kb_remove_hotkey hid w =
  (Val tt,
   with_log (log w ++ [EvRemoveHotkey hid])
     (with_keyboard
        (Some {| hooks := filter (fun h => negb (Nat.eqb (hk_id h) hid)) (hooks k);
                 next_id := next_id k |}) w)).
Proof.
  intros Hk Hex. unfold kb_remove_hotkey, bind, the_keyboard. rewrite Hk, Hex.
  reflexivity.
Qed.

Lemma kb_add_hotkey_live combo name k w :
  keyboard w = Some k ->
  kb_add_hotkey combo name w =
  (Val (next_id k),
   with_log (log w ++ [EvAddHotkey (next_id k) combo name])
     (with_keyboard
        (Some {| hooks := hooks k ++ [{| hk_id := next_id k; hk_combo := combo;
                                        hk_name := name |}];
                 next_id := S (next_id k) |}) w)).
Proof.
  intros Hk. unfold kb_add_hotkey, bind, the_keyboard. rewrite Hk. reflexivity.
Qed.

(** The first loop of [register_hotkeys]: every installed binding goes. *)
Lemma remove_all_hooks : forall hs n w,
  keyboard w = Some {| hooks := hs; next_id := n |} ->
  NoDup (map hk_id hs) ->
  exists w',
    for_each kb_remove_hotkey (map hk_id hs) w = (Val tt, w') /\
    keyboard w' = Some {| hooks := []; next_id := n |} /\
    same_window w w'.
Proof.
  induction hs as [|h hs IH]; intros n w Hk Hnd.
  - exists w. auto using same_window_refl.
  - inversion Hnd as [|? ? Hni Hnd']; subst.
    cbn [map for_each].
    erewrite bind_val.
    2:{ eapply kb_remove_hotkey_live; [eassumption|].
        cbn [hooks existsb]. now rewrite Nat.eqb_refl. }
    cbn [filter negb hooks next_id]. rewrite Nat.eqb_refl. cbn [negb].
    rewrite filter_all.
    2:{ intros x Hx. apply negb_true_iff, Nat.eqb_neq. intros E.
        apply Hni. rewrite <- E. now apply in_map. }
    match goal with
    | |- context [for_each _ _ ?w0] =>
        destruct (IH n w0) as (w' & Hrun & Hk' & Hsame);
          [reflexivity|assumption|]
    end.
    exists w'. rewrite Hrun. repeat split; try assumption; apply Hsame.
Qed.

Lemma same_store_refl w : same_store w w.
Proof. now repeat split. Qed.

Lemma same_store_trans a b c : same_store a b -> same_store b c -> same_store a c.
Proof. unfold same_store. intuition congruence. Qed.

Lemma same_window_store a b : same_window a b -> same_store a b.
Proof. unfold same_window, same_store. tauto. Qed.

Lemma NoDup_snoc {A} (l : list A) (x : A) : NoDup l -> ~ In x l -> NoDup (l ++ [x]).
Proof.
  intros Hnd Hni. apply NoDup_rev in Hnd. rewrite <- (rev_involutive (_ ++ _)).
  apply NoDup_rev. rewrite rev_app_distr. simpl. constructor; [|assumption].
  now rewrite <- in_rev.
Qed.

(** One round of the second loop, for an entry without a hotkey. *)
Lemma register_one_plain name data w :
  truthy_opt (key data) = false -> register_one (name, data) w = (Val tt, w).
Proof.
  unfold register_one, truthy_opt. destruct (key data) as [c|]; [|reflexivity].
  now intros ->.
Qed.

(** One round of the second loop, for an entry with a hotkey. *)
Lemma register_one_keyed name data w k :
  keyboard w = Some k ->
  tracked w ->
  Dict.wf (hotkey_ids w) ->
  Dict.get name (hotkey_ids w) = None ->
  truthy_opt (key data) = true ->
  exists w' k',
    register_one (name, data) w = (Val tt, w') /\
    keyboard w' = Some k' /\
    tracked w' /\
    Dict.wf (hotkey_ids w') /\
    bound_names w' = bound_names w ++ [name] /\
    same_store w w' /\
    (forall n, n <> name -> Dict.get n (hotkey_ids w') = Dict.get n (hotkey_ids w)).
Proof.
  intros Hk Ht Hwf Hfresh Hkey.
  unfold tracked in Ht. rewrite Hk in Ht. destruct Ht as (Hx & Hmap & Hnd & Hlt).
  unfold register_one, truthy_opt in *. destruct (key data) as [c|]; [|discriminate].
  rewrite Hkey.
  erewrite bind_val by (eapply kb_add_hotkey_live; eassumption).
  unfold modify. eexists. eexists. split; [reflexivity|].
  split; [reflexivity|].
  cbn [hotkey_ids with_hotkey_ids with_log with_keyboard].
  rewrite DictFacts.set_fresh by exact Hfresh.
  split; [|split; [|split; [|split]]].
  - unfold tracked. cbn. split; [exact Hx|]. split; [|split].
    + rewrite map_app, Hmap. reflexivity.
    + rewrite map_app. cbn. apply NoDup_snoc; [assumption|].
      intros Hin. apply in_map_iff in Hin as (h & E & Hin).
      rewrite Forall_forall in Hlt. specialize (Hlt h Hin). lia.
    + apply Forall_app. split.
      * eapply Forall_impl; [|exact Hlt]. cbn. intros; lia.
      * constructor; [cbn; lia|constructor].
  - cbn. unfold Dict.wf, Dict.keys. rewrite map_app. cbn.
    apply NoDup_snoc; [exact Hwf|]. now apply DictFacts.get_none_iff.
  - unfold bound_names. cbn. rewrite Hk, map_app. reflexivity.
  - now repeat split.
  - intros n Hn. cbn. erewrite <- DictFacts.set_fresh by exact Hfresh.
    now apply DictFacts.get_set_other.
Qed.

(** The second loop of [register_hotkeys]. *)
Lemma register_loop : forall d w k,
  keyboard w = Some k ->
  tracked w ->
  Dict.wf (hotkey_ids w) ->
  NoDup (Dict.keys d) ->
  (forall n, In n (Dict.keys d) -> Dict.get n (hotkey_ids w) = None) ->
  exists w',
    for_each register_one d w = (Val tt, w') /\
    tracked w' /\
    Dict.wf (hotkey_ids w') /\
    bound_names w' =
      bound_names w ++ map fst (filter (fun ne => truthy_opt (key (snd ne))) d) /\
    same_store w w'.
Proof.
  induction d as [|[name data] d IH]; intros w k Hk Ht Hwf Hnd Hfresh.
  - exists w. cbn. rewrite app_nil_r. auto using same_store_refl.
  - cbn [Dict.keys map fst] in Hnd. inversion Hnd as [|? ? Hni Hnd']; subst.
    cbn [for_each filter snd].
    destruct (truthy_opt (key data)) eqn:Hkey.
    + destruct (@register_one_keyed name data w k) as (w1 & k1 & Hrun & Hk1 & Ht1 & Hwf1 & Hb1 & Hs1 & Hoth);
        auto.
      { apply Hfresh. now left. }
      destruct (IH w1 k1) as (w' & Hrun' & Ht' & Hwf' & Hb' & Hs'); auto.
      { intros n Hin. rewrite Hoth; [apply Hfresh; now right|].
        intros ->. contradiction. }
      exists w'. erewrite bind_val by exact Hrun.
      split; [assumption|]. split; [assumption|]. split; [assumption|]. split.
      * rewrite Hb', Hb1, <- app_assoc. reflexivity.
      * eapply same_store_trans; eassumption.
    + erewrite bind_val by (now apply register_one_plain).
      apply (IH w k); auto. intros n Hin. apply Hfresh. now right.
Qed.

Lemma tracked_names w k :
  keyboard w = Some k -> tracked w -> Dict.keys (hotkey_ids w) = bound_names w.
Proof.
  intros Hk Ht. unfold tracked, bound_names in *. rewrite Hk in *.
  destruct Ht as (_ & <- & _). unfold Dict.keys. rewrite map_map. reflexivity.
Qed.

Lemma tracked_ids w k :
  keyboard w = Some k -> tracked w -> Dict.values (hotkey_ids w) = map hk_id (hooks k).
Proof.
  intros Hk Ht. unfold tracked in *. rewrite Hk in *.
  destruct Ht as (_ & <- & _). unfold Dict.values. rewrite map_map. reflexivity.
Qed.

(** [register_hotkeys] under x11: it returns, the handle table agrees with
    the bindings again, and the bound names are the entries with a
    hotkey, in the order of the store. *)
Lemma register_hotkeys_x11 w k :
  keyboard w = Some k ->
  tracked w ->
  Dict.wf (sounds w) ->
  exists w',
    register_hotkeys w = (Val tt, w') /\
    tracked w' /\
    Dict.wf (hotkey_ids w') /\
    bound_names w' = keyed_names w' /\
    same_store w w'.
Proof.
  intros Hk Ht Hwf. unfold register_hotkeys.
  erewrite bind_val by reflexivity.
  rewrite (@tracked_ids w k Hk Ht).
  pose proof Ht as Ht0. unfold tracked in Ht0. rewrite Hk in Ht0.
  destruct Ht0 as (Hx & Hmap & Hnd & Hlt).
  destruct k as [hs n]. cbn [hooks next_id] in *.
  destruct (@remove_all_hooks hs n w Hk Hnd) as (w1 & Hrun1 & Hk1 & Hsame1).
  erewrite bind_val by exact Hrun1.
  erewrite bind_val by reflexivity.
  erewrite bind_val by reflexivity.
  cbn [sounds with_hotkey_ids].
  assert (Hs1 : sounds w1 = sounds w) by apply Hsame1.
  destruct (@register_loop (sounds w1) (with_hotkey_ids [] w1) {| hooks := []; next_id := n |})
    as (w' & Hrun & Ht' & Hwf' & Hb' & Hs').
  - exact Hk1.
  - unfold tracked. cbn. rewrite Hk1. cbn.
    repeat split; try constructor.
    unfold is_x11 in *. destruct Hsame1 as (-> & _). exact Hx.
  - constructor.
  - rewrite Hs1. exact Hwf.
  - reflexivity.
  - exists w'. split; [exact Hrun|]. split; [exact Ht'|]. split; [exact Hwf'|]. split.
    + rewrite Hb'. unfold bound_names at 1. cbn. rewrite Hk1. cbn.
      unfold keyed_names. destruct Hs' as (_ & -> & _). reflexivity.
    + eapply same_store_trans; [apply same_window_store; exact Hsame1|].
      eapply same_store_trans; [|exact Hs']. now repeat split.
Qed.

Lemma filter_comm {A} (p q : A -> bool) (l : list A) :
  filter p (filter q l) = filter q (filter p l).
Proof.
  induction l as [|a l IH]; [reflexivity|]. cbn [filter].
  destruct (p a) eqn:Hp, (q a) eqn:Hq; cbn [filter]; rewrite ?Hp, ?Hq, IH; reflexivity.
Qed.

Lemma fired_bound combo n w : In n (fired combo w) -> In n (bound_names w).
Proof.
  unfold fired, bound_names. destruct (keyboard w) as [k|]; [|auto].
  intros Hin. apply in_map_iff in Hin as (h & <- & Hin).
  apply filter_In in Hin as [Hin _]. now apply in_map.
Qed.

(** Lines 163-165 of [delete_sound]: the binding of [name] goes, from the
    keyboard module first and then from the handle table; nothing else
    changes. *)
Lemma unbind_spec name w :
  tracked w ->
  Dict.wf (hotkey_ids w) ->
  exists w',
    unbind name w = (Val tt, w') /\
    tracked w' /\
    Dict.wf (hotkey_ids w') /\
    hotkey_ids w' = Dict.pop name (hotkey_ids w) /\
    bound_names w' = filter (fun n => negb (String.eqb name n)) (bound_names w) /\
    same_store w w' /\
    log w' = log w ++ match Dict.get name (hotkey_ids w) with
                      | Some hid => [EvRemoveHotkey hid]
                      | None => []
                      end /\
    (forall combo,
       fired combo w' = filter (fun n => negb (String.eqb name n)) (fired combo w)).
Proof.
  intros Ht Hwf. unfold unbind. erewrite bind_val by reflexivity.
  destruct (Dict.get name (hotkey_ids w)) as [hid|] eqn:Hg.
  - destruct (keyboard w) as [k|] eqn:Hk.
    2:{ unfold tracked in Ht. rewrite Hk in Ht. destruct Ht as (_ & E).
        rewrite E in Hg. discriminate. }
    pose proof (@tracked_names w k Hk Ht) as Hnames.
    unfold tracked in Ht. rewrite Hk in Ht. destruct Ht as (Hx & Hmap & Hnd & Hlt).
    assert (Hin : exists h0, In h0 (hooks k) /\ hk_name h0 = name /\ hk_id h0 = hid).
    { apply DictFacts.get_in in Hg. rewrite <- Hmap in Hg.
      apply in_map_iff in Hg as (h0 & E & Hin). injection E as E1 E2. eauto. }
    destruct Hin as (h0 & Hin0 & Hn0 & Hi0).
    assert (Hfilter : filter (fun h => negb (Nat.eqb (hk_id h) hid)) (hooks k)
                      = filter (fun h => negb (String.eqb name (hk_name h))) (hooks k)).
    { apply filter_ext_in. intros h Hin. f_equal.
      destruct (Nat.eqb_spec (hk_id h) hid) as [E|E];
        destruct (String.eqb_spec name (hk_name h)) as [E'|E']; auto; exfalso.
      - apply E'. rewrite (@NoDup_map_eq _ _ hk_id (hooks k) h h0); auto. congruence.
      - apply E. rewrite (@NoDup_map_eq _ _ hk_name (hooks k) h h0); auto; [|congruence].
        unfold bound_names in Hnames. rewrite Hk in Hnames. rewrite <- Hnames. exact Hwf. }
    erewrite bind_val.
    2:{ eapply kb_remove_hotkey_live; [exact Hk|].
        apply existsb_exists. exists h0. split; [assumption|]. now apply Nat.eqb_eq. }
    unfold modify. eexists. split; [reflexivity|].
    rewrite Hfilter. cbn.
    assert (Hpop : map hook_binding (filter (fun h => negb (String.eqb name (hk_name h))) (hooks k))
                   = Dict.pop name (hotkey_ids w)).
    { rewrite <- Hmap. unfold Dict.pop.
      rewrite <- (map_filter_swap hook_binding (fun kv => negb (String.eqb name (fst kv)))).
      reflexivity. }
    split; [|split; [|split; [|split; [|split]]]].
    + unfold tracked. cbn. split; [exact Hx|]. split; [exact Hpop|]. split.
      * rewrite <- Hfilter.
        rewrite (map_filter_swap hk_id (fun i => negb (Nat.eqb i hid))).
        now apply NoDup_filter.
      * rewrite Forall_forall in *. intros h Hh. apply filter_In in Hh as [Hh _]. auto.
    + now apply DictFacts.wf_pop.
    + reflexivity.
    + unfold bound_names. cbn. rewrite Hk.
      now rewrite (map_filter_swap hk_name (fun n => negb (String.eqb name n))).
    + now repeat split.
    + split; [reflexivity|]. intros combo. unfold fired. cbn. rewrite Hk.
      rewrite <- (map_filter_swap hk_name (fun n => negb (String.eqb name n))).
      f_equal. apply filter_comm.
  - exists w. split; [reflexivity|]. split; [assumption|]. split; [assumption|].
    split; [now rewrite DictFacts.pop_absent|]. split.
    + symmetry. apply filter_all. intros n Hn. apply negb_true_iff, String.eqb_neq.
      intros ->. apply DictFacts.get_none_iff in Hg. apply Hg.
      destruct (keyboard w) as [k|] eqn:Hk.
      * now rewrite (@tracked_names w k Hk Ht).
      * unfold bound_names in Hn. rewrite Hk in Hn. destruct Hn.
    + split; [apply same_store_refl|]. split; [now rewrite app_nil_r|].
      intros combo. symmetry. apply filter_all. intros n Hn.
      apply negb_true_iff, String.eqb_neq.
      intros ->. apply DictFacts.get_none_iff in Hg. apply Hg.
      destruct (keyboard w) as [k|] eqn:Hk.
      * rewrite (@tracked_names w k Hk Ht). now apply fired_bound with combo.
      * unfold fired in Hn. rewrite Hk in Hn. destruct Hn.
Qed.

(** ** Playback *)

(** The four ways [play_sound] can go, with the calls it makes. *)
Lemma play_sound_outcome E name w :
  play_sound E name w =
  match Dict.get name (sounds w) with
  | None => (Raise (KeyError name), w)
  | Some e =>
      match load_audio E (path e) with
      | None =>
          (Raise (SoundFileError (path e)), with_log (log w ++ [EvRead (path e)]) w)
      | Some (data, _) =>
          match find_from 0 (query_devices E) with
          | None =>
              (Raise (RuntimeError "Soundboard sink not found"),
               with_log (log w ++ [EvRead (path e); EvStop; EvQueryDevices])
                 (with_streams [] w))
          | Some i =>
              (Val tt,
               with_log (log w ++ [EvRead (path e); EvStop; EvQueryDevices; EvPlay i])
                 (with_streams [{| st_device := i; st_data := data |}] w))
          end
      end
  end.
Proof.
  unfold play_sound, bind, get.
  destruct (Dict.get name (sounds w)) as [e|]; [|reflexivity].
  destruct (load_audio E (path e)) as [[data sr]|]; [|reflexivity].
  unfold sd_stop, find_sb_sink, sd_play, emit, modify, bind, ret, raise.
  destruct (find_from 0 (query_devices E)) as [i|];
    cbn; unfold with_log, with_streams; cbn; rewrite <- !app_assoc; reflexivity.
Qed.

Lemma play_sound_inv E name w : inv w -> inv (exec (play_sound E name) w).
Proof.
  unfold exec. rewrite play_sound_outcome.
  destruct (Dict.get name (sounds w)) as [e|]; [|auto].
  destruct (load_audio E (path e)) as [[data sr]|];
    [destruct (find_from 0 (query_devices E))|];
    unfold inv, tracked, is_x11; cbn; intuition.
Qed.

Lemma for_each_inv {A} (f : A -> M unit) (l : list A) :
  (forall a w, inv w -> inv (exec (f a) w)) ->
  forall w, inv w -> inv (exec (for_each f l) w).
Proof.
  intros Hf. induction l as [|a l IH]; intros w Hw; [exact Hw|].
  unfold exec in *. cbn [for_each]. unfold bind.
  specialize (Hf a w Hw). destruct (f a w) as [[[]|e] w1]; cbn in *; auto.
Qed.

Lemma add_sound_inv p w : inv w -> inv (exec (add_sound p) w).
Proof.
  unfold exec, add_sound. destruct (Str.truthy p); cbn; [|auto].
  unfold inv, tracked, is_x11; cbn. intros (Ht & Hs & Hh & Hl).
  repeat split; auto. now apply DictFacts.wf_set.
Qed.

Lemma delete_item_inv i name w : inv w -> inv (exec (delete_item i name) w).
Proof.
  intros (Ht & Hs & Hh & Hl). unfold exec, delete_item.
  destruct (@unbind_spec name w Ht Hh) as (w1 & Hrun & Ht1 & Hh1 & _ & _ & Hsame & _).
  erewrite bind_val by exact Hrun.
  destruct Hsame as (Hsess & Hsnd & _ & _ & Hstr & _).
  unfold bind, modify, save_sounds. cbn.
  unfold inv, tracked, is_x11 in *; cbn.
  repeat split; auto.
  - rewrite Hsnd. now apply DictFacts.wf_pop.
  - now rewrite Hstr.
Qed.

Lemma assign_item_inv i name dlg w : inv w -> inv (exec (assign_item i name dlg) w).
Proof.
  intros Hinv. unfold exec, assign_item. erewrite bind_val by reflexivity.
  destruct (is_x11 w) eqn:Hx; [|exact Hinv].
  erewrite bind_val by reflexivity.
  destruct (dlg_exec dlg && truthy_opt (dlg_key dlg)); [|exact Hinv].
  destruct (Dict.get name (sounds w)) as [e|]; [|exact Hinv].
  unfold bind at 1. unfold modify at 1.
  unfold bind at 1. unfold modify at 1.
  unfold bind at 1. unfold save_sounds at 1. unfold modify at 1.
  match goal with |- inv (snd (register_hotkeys ?w0)) => set (w1 := w0) end.
  destruct Hinv as (Ht & Hs & Hh & Hl).
  assert (Ht1 : tracked w1) by exact Ht.
  destruct (keyboard w1) as [k|] eqn:Hk.
  2:{ unfold tracked in Ht1. rewrite Hk in Ht1. destruct Ht1 as (E & _).
      change (is_x11 w1) with (is_x11 w) in E. congruence. }
  destruct (@register_hotkeys_x11 w1 k Hk Ht1) as (w' & Hrun & Ht' & Hh' & _ & Hsame).
  { subst w1. cbn. now apply DictFacts.wf_set. }
  rewrite Hrun. cbn [snd].
  destruct Hsame as (_ & Hsnd & _ & _ & Hstr & _).
  repeat split; auto.
  - rewrite Hsnd. subst w1. cbn. now apply DictFacts.wf_set.
  - rewrite Hstr. exact Hl.
Qed.

Lemma tracked_same_hotkeys w w' : same_hotkeys w w' -> tracked w -> tracked w'.
Proof.
  intros (Hs & Hk & Hh). unfold tracked, is_x11. now rewrite Hs, Hk, Hh.
Qed.

(** ** Persistence *)

Lemma skipn_nth_error {A} (l : list A) : forall s,
  skipn s l = match nth_error l s with
              | Some r => r :: skipn (S s) l
              | None => []
              end.
Proof.
  induction l as [|a l IH]; intros [|s]; try reflexivity.
  cbn [nth_error]. rewrite <- IH. reflexivity.
Qed.

Lemma load_rec_run E r w :
  load_rec E r w =
  (Val tt,
   if loadable E r
   then with_items (items w ++ [label (r_name r) (r_key r)])
          (with_sounds (Dict.set (r_name r) (snd (entry_of r)) (sounds w)) w)
   else w).
Proof. unfold load_rec. now destruct (loadable E r). Qed.

Lemma load_one_run E i w :
  load_one E i w =
  match nth_error (arr_slots (settings w)) i with
  | Some r => load_rec E r w
  | None => (Val tt, w)
  end.
Proof.
  unfold load_one, bind, get.
  now destruct (nth_error (arr_slots (settings w)) i).
Qed.

(** The loop over indexes reads the slots in order. *)
Lemma load_loop_slots E : forall n s w,
  for_each (load_one E) (seq s n) w =
  for_each (load_rec E) (firstn n (skipn s (arr_slots (settings w)))) w.
Proof.
  induction n as [|n IH]; intros s w; [reflexivity|].
  cbn [seq for_each]. rewrite skipn_nth_error.
  destruct (nth_error (arr_slots (settings w)) s) as [r|] eqn:Hn.
  - cbn [firstn for_each].
    erewrite bind_val by (rewrite load_one_run, Hn; apply load_rec_run).
    erewrite (bind_val (load_rec E r)) by apply load_rec_run.
    rewrite IH. f_equal. f_equal. f_equal.
    now destruct (loadable E r).
  - erewrite bind_val by (rewrite load_one_run, Hn; reflexivity).
    rewrite IH, skipn_nth_error.
    assert (nth_error (arr_slots (settings w)) (S s) = None) as ->.
    { apply nth_error_None. apply nth_error_None in Hn. lia. }
    now destruct n.
Qed.

Lemma load_sounds_unfold E w :
  load_sounds E w =
  for_each (load_rec E) (firstn (arr_size (settings w)) (arr_slots (settings w)))
    (with_sounds [] (with_items [] w)).
Proof.
  unfold load_sounds. unfold bind at 1, modify at 1. unfold bind at 1, modify at 1.
  unfold bind at 1, get at 1. rewrite load_loop_slots. reflexivity.
Qed.

(** What the loop over the records does to the store. *)
Lemma load_recs_spec E : forall recs w,
  exists w',
    for_each (load_rec E) recs w = (Val tt, w') /\
    same_hotkeys w w' /\ streams w' = streams w /\ settings w' = settings w /\
    (Dict.wf (sounds w) -> Dict.wf (sounds w')) /\
    (forall ne, In ne (sounds w') ->
       In ne (sounds w) \/ exists r, In r recs /\ loadable E r = true /\ ne = entry_of r) /\
    (forall k, Dict.mem k (sounds w) = true -> Dict.mem k (sounds w') = true) /\
    (forall r, In r recs -> loadable E r = true -> Dict.mem (r_name r) (sounds w') = true) /\
    (NoDup (map r_name recs) ->
     (forall r, In r recs -> Dict.get (r_name r) (sounds w) = None) ->
     sounds w' = sounds w ++ map entry_of (filter (loadable E) recs) /\
     items w' = items w ++ map (fun r => label (r_name r) (r_key r))
                             (filter (loadable E) recs)).
Proof.
  induction recs as [|r recs IH]; intros w.
  - exists w. cbn. rewrite !app_nil_r. repeat split; auto; tauto.
  - cbn [for_each]. unfold bind. rewrite load_rec_run.
    match goal with |- context [for_each _ _ ?w0] => set (w1 := w0) end.
    destruct (IH w1) as (w' & Hrun & Hhk & Hstr & Hset & Hwf & Hin & Hmono & Hmem & Hexact).
    exists w'. split; [exact Hrun|].
    assert (Hw1 : same_hotkeys w w1 /\ streams w1 = streams w /\ settings w1 = settings w).
    { subst w1. destruct (loadable E r); now repeat split. }
    destruct Hw1 as (Hhk1 & Hstr1 & Hset1).
    split; [eapply same_hotkeys_trans; eassumption|].
    split; [congruence|]. split; [congruence|].
    split; [|split; [|split; [|split]]].
    + intros Hw. apply Hwf. subst w1. destruct (loadable E r); [|exact Hw].
      cbn. now apply DictFacts.wf_set.
    + intros [n e] Hne. apply Hin in Hne as [Hne|(r' & Hr' & Hl & E')].
      * subst w1. destruct (loadable E r) eqn:Hl; [|auto].
        cbn in Hne. apply DictFacts.in_set in Hne as [[-> ->]|Hne]; [|auto].
        right. exists r. split; [now left|]. split; [exact Hl|]. reflexivity.
      * right. exists r'. split; [now right|]. auto.
    + intros k Hk. apply Hmono. subst w1. destruct (loadable E r); [|exact Hk].
      cbn. unfold Dict.mem in *.
      destruct (String.eqb_spec k (r_name r)) as [->|Hne].
      * now rewrite DictFacts.get_set_same.
      * now rewrite DictFacts.get_set_other.
    + intros r' [<-|Hr'] Hl; [|now apply Hmem].
      apply Hmono. subst w1. rewrite Hl. cbn. unfold Dict.mem.
      now rewrite DictFacts.get_set_same.
    + intros Hnd Hfresh. cbn [map] in Hnd. inversion Hnd as [|? ? Hni Hnd']; subst.
      assert (Hr : Dict.get (r_name r) (sounds w) = None) by (apply Hfresh; now left).
      destruct Hexact as (Hs & Hi); [assumption| |].
      { intros r' Hr'. subst w1. destruct (loadable E r).
        - cbn. rewrite DictFacts.get_set_other; [apply Hfresh; now right|].
          intros E'. apply Hni. rewrite <- E'. now apply in_map.
        - apply Hfresh. now right. }
      rewrite Hs, Hi. subst w1. cbn [filter].
      destruct (loadable E r); [|auto].
      cbn. rewrite DictFacts.set_fresh by exact Hr.
      rewrite <- !app_assoc. auto.
Qed.

Lemma set_slot_length i r slots :
  i <= length slots -> S i <= length (set_slot i r slots).
Proof.
  intros Hi. unfold set_slot. rewrite length_app, length_firstn. cbn. lia.
Qed.

Lemma set_slot_firstn i r slots :
  i <= length slots -> firstn (S i) (set_slot i r slots) = firstn i slots ++ [r].
Proof.
  intros Hi. unfold set_slot.
  rewrite firstn_app, length_firstn, Nat.min_l by exact Hi.
  replace (S i - i) with 1 by lia.
  change (firstn 1 (r :: skipn (S i) slots)) with [r].
  rewrite firstn_firstn, Nat.min_r by lia. reflexivity.
Qed.

(** [save_sounds] leaves the store's records in the first slots. *)
Lemma write_from_firstn : forall d i slots,
  i <= length slots ->
  firstn (i + length d) (write_from i d slots) = firstn i slots ++ map record_of d.
Proof.
  induction d as [|[name data] d IH]; intros i slots Hi.
  - cbn. now rewrite Nat.add_0_r, app_nil_r.
  - cbn [write_from length map].
    replace (i + S (length d)) with (S i + length d) by lia.
    rewrite IH by now apply set_slot_length.
    rewrite set_slot_firstn by exact Hi.
    rewrite <- app_assoc. reflexivity.
Qed.

Lemma save_sounds_run w :
  save_sounds w =
  (Val tt, with_settings {| arr_size := length (sounds w);
                            arr_slots := write_from 0 (sounds w) (arr_slots (settings w)) |} w).
Proof. reflexivity. Qed.

Lemma save_sounds_persisted w :
  persisted (settings (snd (save_sounds w))) = map record_of (sounds w).
Proof.
  rewrite save_sounds_run. unfold persisted. cbn.
  exact (@write_from_firstn (sounds w) 0 (arr_slots (settings w)) (Nat.le_0_l _)).
Qed.

Lemma entry_of_record_of ne : entry_of (record_of ne) = ne.
Proof. now destruct ne as [n [p k]]. Qed.

Lemma filter_records (p : srecord -> bool) (d : Dict.t entry) :
  map entry_of (filter p (map record_of d)) = filter (fun ne => p (record_of ne)) d.
Proof.
  induction d as [|ne d IH]; [reflexivity|].
  cbn [map filter]. destruct (p (record_of ne)); cbn [map]; rewrite IH; [|reflexivity].
  now rewrite entry_of_record_of.
Qed.

(** What [load_sounds] leaves in the store. *)
Lemma load_sounds_spec (E : env) (w : world) :
  exists w',
    load_sounds E w = (Val tt, w') /\
    (forall ne, In ne (sounds w') ->
       path_exists E (path (snd ne)) = true /\
       exists r, In r (persisted (settings w)) /\ ne = entry_of r) /\
    (forall r, In r (persisted (settings w)) -> loadable E r = true ->
       Dict.mem (r_name r) (sounds w') = true) /\
    (NoDup (map r_name (persisted (settings w))) ->
     sounds w' = map entry_of (filter (loadable E) (persisted (settings w)))).
Proof.
  rewrite load_sounds_unfold. fold (persisted (settings w)).
  destruct (load_recs_spec E (persisted (settings w)) (with_sounds [] (with_items [] w)))
    as (w' & Hrun & _ & _ & _ & _ & Hin & _ & Hmem & Hexact).
  exists w'. split; [exact Hrun|]. split; [|split].
  - intros ne Hne. apply Hin in Hne as [[]|(r & Hr & Hl & ->)].
    split; [|eauto]. unfold loadable in Hl. apply andb_true_iff in Hl. apply Hl.
  - exact Hmem.
  - intros Hnd. apply Hexact; [exact Hnd|reflexivity].
Qed.

(** C8: loading never raises; every entry of the resulting store comes
    from a persisted record whose path exists, so a record whose path is
    missing leaves nothing behind; every record whose path exists has its
    name in the store, and when the persisted names are distinct the store
    is exactly the surviving records, in order. *)
Theorem load_sounds_drops_missing (E : env) (w : world) :
  exists w',
    load_sounds E w = (Val tt, w') /\
    (forall ne, In ne (sounds w') ->
       path_exists E (path (snd ne)) = true /\
       exists r, In r (persisted (settings w)) /\ ne = entry_of r) /\
    (forall r, In r (persisted (settings w)) -> loadable E r = true ->
       Dict.mem (r_name r) (sounds w') = true) /\
    (NoDup (map r_name (persisted (settings w))) ->
     sounds w' = map entry_of (filter (loadable E) (persisted (settings w)))).
Proof. apply load_sounds_spec. Qed.

(** C5: for a store with distinct ids, saving and then loading returns,
    and the reloaded store is the saved one, in order, without the
    entries whose path does not exist; the records agree field by field. *)
Theorem save_load_roundtrip (E : env) (w : world) :
  Dict.wf (sounds w) ->
  path_exists E "" = false ->
  exists w',
    (save_sounds ;; load_sounds E) w = (Val tt, w') /\
    sounds w' = filter (fun ne => path_exists E (path (snd ne))) (sounds w) /\
    map record_of (sounds w') =
      filter (fun r => path_exists E (r_path r)) (map record_of (sounds w)).
Proof.
  intros Hwf Hempty.
  erewrite bind_val by apply save_sounds_run.
  match goal with |- context [load_sounds E ?w0] => set (w1 := w0) end.
  destruct (load_sounds_spec E w1) as (w' & Hrun & _ & _ & Hexact).
  assert (Hp : persisted (settings w1) = map record_of (sounds w))
    by apply save_sounds_persisted.
  rewrite Hp in Hexact.
  assert (Hl : forall r, loadable E r = path_exists E (r_path r)).
  { intros r. unfold loadable. destruct (r_path r); [now rewrite Hempty|reflexivity]. }
  assert (Hs : sounds w' = filter (fun ne => path_exists E (path (snd ne))) (sounds w)).
  { rewrite Hexact.
    - rewrite filter_records. apply filter_ext. intros ne. apply Hl.
    - rewrite map_map. exact Hwf. }
  exists w'. split; [exact Hrun|]. split; [exact Hs|].
  rewrite Hs. clear. induction (sounds w) as [|ne d IH]; [reflexivity|].
  cbn [filter map record_of r_path]. destruct (path_exists E (path (snd ne))); cbn [map]; now rewrite IH.
Qed.

Lemma save_load_roundtrip_witness :
  exists w',
    (save_sounds ;; load_sounds demo_env) demo_readded = (Val tt, w') /\
    sounds w' = sounds demo_readded.
Proof.
  destruct (@save_load_roundtrip demo_env demo_readded) as (w' & Hrun & Hs & _).
  - repeat constructor. intros [].
  - reflexivity.
  - exists w'. split; [exact Hrun|exact Hs].
Defined.

(** ** Reachable states *)

Lemma load_sounds_frame (E : env) (w : world) :
  exists w',
    load_sounds E w = (Val tt, w') /\
    same_hotkeys w w' /\ streams w' = streams w /\ settings w' = settings w /\
    Dict.wf (sounds w').
Proof.
  rewrite load_sounds_unfold.
  destruct (load_recs_spec E (firstn (arr_size (settings w)) (arr_slots (settings w)))
              (with_sounds [] (with_items [] w)))
    as (w' & Hrun & Hhk & Hstr & Hset & Hwf & _).
  exists w'. split; [exact Hrun|]. split; [exact Hhk|]. split; [exact Hstr|].
  split; [exact Hset|]. apply Hwf. constructor.
Qed.

Lemma init_inv E sess q : inv (exec (init E) (fresh sess q)).
Proof.
  unfold exec, init.
  destruct (load_sounds_frame E (fresh sess q)) as (w1 & Hrun & Hhk & Hstr & _ & Hwf).
  erewrite bind_val by exact Hrun. erewrite bind_val by reflexivity.
  assert (Ht0 : tracked (fresh sess q)).
  { unfold tracked, is_x11, fresh. cbn -[Str.lower String.eqb].
    destruct (String.eqb (Str.lower sess) "x11") eqn:Hs;
      cbn -[Str.lower String.eqb]; rewrite ?Hs; repeat split; constructor. }
  pose proof (tracked_same_hotkeys Hhk Ht0) as Ht1.
  assert (Hh1 : Dict.wf (hotkey_ids w1)).
  { destruct Hhk as (_ & _ & ->). constructor. }
  assert (Hl1 : length (streams w1) <= 1) by (rewrite Hstr; cbn; lia).
  destruct (is_x11 w1) eqn:Hx; [|now repeat split].
  destruct (keyboard w1) as [k|] eqn:Hk.
  2:{ unfold tracked in Ht1. rewrite Hk in Ht1. destruct Ht1. congruence. }
  destruct (@register_hotkeys_x11 w1 k Hk Ht1 Hwf) as (w' & Hrun' & Ht' & Hh' & _ & Hsame).
  rewrite Hrun'. cbn [snd]. destruct Hsame as (_ & Hsnd & _ & _ & Hstr' & _).
  repeat split; auto; [now rewrite Hsnd|now rewrite Hstr'].
Qed.

Lemma handle_inv E ev w : inv w -> inv (exec (handle E ev) w).
Proof.
  intros Hinv. destruct ev as [p|cur|cur dlg|cur| |combo]; cbn [handle].
  - now apply add_sound_inv.
  - unfold exec, delete_sound. erewrite bind_val by reflexivity.
    destruct (currentItem cur w) as [[i text]|]; [|exact Hinv].
    now apply delete_item_inv.
  - unfold exec. erewrite bind_val by reflexivity.
    destruct (is_x11 w); [|exact Hinv].
    unfold assign_hotkey. erewrite bind_val by reflexivity.
    destruct (currentItem cur w) as [[i text]|]; [|exact Hinv].
    now apply assign_item_inv.
  - unfold exec, play_selected. erewrite bind_val by reflexivity.
    destruct (currentItem cur w) as [[i text]|]; [|exact Hinv].
    now apply play_sound_inv.
  - unfold inv, tracked, is_x11 in *. cbn. intuition.
  - unfold exec, trigger. erewrite bind_val by reflexivity.
    apply for_each_inv; [|exact Hinv]. intros. now apply play_sound_inv.
Qed.

(** Every state of the open window satisfies the invariant. *)
Lemma reachable_inv w : reachable w -> inv w.
Proof.
  induction 1 as [sess q E|w E ev _ IH]; [apply init_inv|now apply handle_inv].
Qed.

(** ** Deleting *)

(** [delete_sound] on row [i] with name [name], step by step. *)
Lemma delete_item_spec i name w :
  tracked w ->
  Dict.wf (hotkey_ids w) ->
  exists w1 w',
    unbind name w = (Val tt, w1) /\
    sounds w1 = sounds w /\
    ~ In name (bound_names w1) /\
    delete_item i name w = (Val tt, w') /\
    sounds w' = Dict.pop name (sounds w) /\
    items w' = takeItem i (items w) /\
    keyboard w' = keyboard w1 /\
    hotkey_ids w' = Dict.pop name (hotkey_ids w) /\
    persisted (settings w') = map record_of (sounds w') /\
    (forall combo,
       fired combo w' = filter (fun n => negb (String.eqb name n)) (fired combo w)) /\
    log w' = log w ++ match Dict.get name (hotkey_ids w) with
                      | Some hid => [EvRemoveHotkey hid]
                      | None => []
                      end /\
    bound_names w' = filter (fun n => negb (String.eqb name n)) (bound_names w).
Proof.
  intros Ht Hwf.
  destruct (@unbind_spec name w Ht Hwf)
    as (w1 & Hrun & Ht1 & Hh1 & Hpop & Hb & Hsame & Hlog & Hfired).
  destruct Hsame as (Hsess & Hsnd & Hit & Hset & Hstr & Hacc).
  exists w1. eexists. split; [exact Hrun|]. split; [exact Hsnd|]. split.
  { rewrite Hb. intros Hin. apply filter_In in Hin as [_ Hin].
    now rewrite String.eqb_refl in Hin. }
  unfold delete_item. erewrite bind_val by exact Hrun.
  unfold bind, modify. rewrite save_sounds_run.
  split; [reflexivity|]. cbn.
  split; [now rewrite Hsnd|]. split; [now rewrite Hit|]. split; [reflexivity|].
  split; [exact Hpop|]. split.
  { exact (@write_from_firstn (Dict.pop name (sounds w1)) 0 (arr_slots (settings w1))
             (Nat.le_0_l _)). }
  split; [|split; [exact Hlog|exact Hb]].
  intros combo. rewrite <- Hfired. reflexivity.
Qed.






(** ** Stop, then start *)

Lemma skipn_app_exact {A} (l evs : list A) : skipn (length l) (l ++ evs) = evs.
Proof. induction l; cbn; auto. Qed.

(** C1 (amended): [play_sound] looks the entry up and reads the file first;
    when either fails, [sd.stop()] is not called and what was playing goes
    on.  Once the file is decoded it calls [sd.stop()], then resolves the
    sink, then starts the stream, in that order: a call that starts a
    stream leaves that stream alone playing, a call that finds no sink
    leaves none.  In every state of the open window at most one stream
    is playing. *)
Theorem play_sound_stop_then_start :
  (forall (E : env) (name : string) (w : world),
     match play_sound E name w with
     | (Val _, w') =>
         exists e data i,
           Dict.get name (sounds w) = Some e /\
           events_of (play_sound E name) w =
             [EvRead (path e); EvStop; EvQueryDevices; EvPlay i] /\
           streams w' = [{| st_device := i; st_data := data |}]
     | (Raise (KeyError _), w') => w' = w
     | (Raise (SoundFileError p), w') =>
         events_of (play_sound E name) w = [EvRead p] /\ streams w' = streams w
     | (Raise (RuntimeError _), w') =>
         exists p,
           events_of (play_sound E name) w = [EvRead p; EvStop; EvQueryDevices] /\
           streams w' = []
     | (Raise (NameError _), _) => False
     end) /\
  (forall w, reachable w -> length (streams w) <= 1).
Proof.
  split; [|intros w Hr; apply reachable_inv in Hr; apply Hr].
  intros E name w. unfold events_of. rewrite play_sound_outcome.
  destruct (Dict.get name (sounds w)) as [e|]; [|reflexivity].
  destruct (load_audio E (path e)) as [[data sr]|];
    [destruct (find_from 0 (query_devices E)) as [i|]|]; cbn [snd log with_log streams with_streams].
  - exists e, data, i. now rewrite skipn_app_exact.
  - exists (path e). now rewrite skipn_app_exact.
  - now rewrite skipn_app_exact.
Qed.

Lemma play_sound_stop_then_start_witness :
  length (streams (exec (handle demo_env (ClickPlay (Some 0))) demo_x11)) <= 1.
Proof.
  apply (proj2 play_sound_stop_then_start).
  apply reach_step. apply reach_init.
Defined.

(** C1, as first stated, fails: the first call [play_sound] makes is the
    read of the file, not [sd.stop()]; and when the file does not decode,
    [sd.stop()] is not called at all and the stream goes on. *)
Lemma play_sound_reads_first_counterexample :
  ~ (forall (E : env) (name : string) (w : world),
       exists rest, events_of (play_sound E name) w = EvStop :: rest) /\
  events_of (play_sound demo_env "clap.wav") demo_x11
    = [EvRead "/m/clap.wav"; EvStop; EvQueryDevices; EvPlay 1] /\
  events_of (play_sound demo_env "broken.wav") demo_playing = [EvRead "/m/broken.wav"] /\
  streams (exec (play_sound demo_env "broken.wav") demo_playing) = streams demo_playing /\
  length (streams demo_playing) = 1.
Proof.
  split; [|repeat split; reflexivity].
  intros H. destruct (H demo_env "clap.wav" demo_x11) as [rest Hr].
  vm_compute in Hr. discriminate Hr.
Qed.

(** ** Adding *)

(** C3 (amended): [add_sound] never raises.  It leaves one entry under the
    base name of the picked file, with that path and no hotkey: a fresh
    name goes last, a name already present is overwritten where it
    stands.  The other entries are untouched, the ids stay distinct and
    the result is persisted. *)
Theorem add_sound_inserts (picked : string) (w : world) :
  Str.truthy picked = true ->
  exists w',
    add_sound picked w = (Val tt, w') /\
    Dict.get (basename picked) (sounds w') = Some {| path := picked; key := None |} /\
    (forall n, n <> basename picked -> Dict.get n (sounds w') = Dict.get n (sounds w)) /\
    (Dict.get (basename picked) (sounds w) = None ->
     sounds w' = sounds w ++ [(basename picked, {| path := picked; key := None |})]) /\
    Dict.keys (sounds w') =
      (if Dict.mem (basename picked) (sounds w) then Dict.keys (sounds w)
       else Dict.keys (sounds w) ++ [basename picked]) /\
    (Dict.wf (sounds w) -> Dict.wf (sounds w')) /\
    persisted (settings w') = map record_of (sounds w').
Proof.
  intros Hp. unfold add_sound. rewrite Hp. cbn [negb].
  unfold bind, modify. rewrite save_sounds_run. eexists. split; [reflexivity|].
  cbn [sounds settings with_settings with_items with_sounds].
  split; [apply DictFacts.get_set_same|].
  split; [intros n Hn; now apply DictFacts.get_set_other|].
  split; [apply DictFacts.set_fresh|].
  split; [apply DictFacts.keys_set|].
  split; [apply DictFacts.wf_set|].
  match goal with
  | |- persisted {| arr_size := _; arr_slots := write_from 0 ?d ?sl |} = _ =>
      exact (@write_from_firstn d 0 sl (Nat.le_0_l _))
  end.
Qed.

Lemma add_sound_inserts_witness :
  exists w',
    add_sound "/other/clap.wav" demo_x11 = (Val tt, w') /\
    Dict.get "clap.wav" (sounds w') = Some {| path := "/other/clap.wav"; key := None |}.
Proof.
  destruct (@add_sound_inserts "/other/clap.wav" demo_x11 eq_refl) as (w' & Hrun & Hget & _).
  exists w'. split; [exact Hrun|exact Hget].
Defined.

(** C3, as first stated, fails: adding a file whose base name is already
    in the store returns normally and changes the store. *)
Lemma add_sound_duplicate_counterexample :
  ~ (forall (picked : string) (w : world),
       Str.truthy picked = true ->
       Dict.mem (basename picked) (sounds w) = true ->
       exists e, fst (add_sound picked w) = Raise e /\
                 sounds (snd (add_sound picked w)) = sounds w).
Proof.
  intros H. destruct (H "/other/clap.wav" demo_x11 eq_refl eq_refl) as (e & Hr & _).
  vm_compute in Hr. discriminate Hr.
Qed.

(** ** Sessions without global hotkeys *)

Lemma add_sound_returns p w : fst (add_sound p w) = Val tt.
Proof. unfold add_sound. now destruct (Str.truthy p). Qed.

Lemma play_sound_no_name_error E name w n :
  fst (play_sound E name w) <> Raise (NameError n).
Proof.
  rewrite play_sound_outcome.
  destruct (Dict.get name (sounds w)) as [e|]; [|discriminate].
  destruct (load_audio E (path e)) as [[data sr]|]; [|discriminate].
  destruct (find_from 0 (query_devices E)); discriminate.
Qed.

(** C6, on the code: outside x11 the [keyboard] module is never bound, the
    handle table stays empty, no binding is live, the hotkey button does
    nothing and no handler of the open window trips on the missing
    module; but [closeEvent] reaches for
    [keyboard.clear_all_hotkeys] all the same and raises [NameError]
    after [sd.stop()], before [event.accept()]. *)
Theorem closeEvent_without_keyboard (w : world) :
  reachable w ->
  is_x11 w = false ->
  keyboard w = None /\
  hotkey_ids w = [] /\
  bound_names w = [] /\
  (forall E ev n, fst (handle E ev w) <> Raise (NameError n)) /\
  (forall E cur dlg, handle E (ClickHotkey cur dlg) w = (Val tt, w)) /\
  closeEvent w =
    (Raise (NameError "keyboard"), with_log (log w ++ [EvStop]) (with_streams [] w)) /\
  accepted (exec closeEvent w) = accepted w.
Proof.
  intros Hr Hx. apply reachable_inv in Hr. destruct Hr as (Ht & _).
  unfold tracked in Ht. destruct (keyboard w) as [k|] eqn:Hk.
  { destruct Ht as (Hx' & _). congruence. }
  destruct Ht as (_ & Hh).
  split; [reflexivity|]. split; [exact Hh|].
  split; [unfold bound_names; now rewrite Hk|].
  split; [|split].
  - intros E ev n. destruct ev as [p|cur|cur dlg|cur| |combo]; cbn [handle].
    + rewrite add_sound_returns. discriminate.
    + unfold delete_sound, bind, get. destruct (currentItem cur w) as [[i text]|];
        [|discriminate].
      unfold delete_item, unbind, bind, get. rewrite Hh. discriminate.
    + unfold bind, get. rewrite Hx. discriminate.
    + unfold play_selected, bind, get. destruct (currentItem cur w) as [[i text]|];
        [|discriminate].
      apply play_sound_no_name_error.
    + discriminate.
    + unfold trigger, bind, get, fired. rewrite Hk. discriminate.
  - intros E cur dlg. cbn [handle]. unfold bind, get. now rewrite Hx.
  - unfold exec, closeEvent, bind, sd_stop, emit, modify, kb_clear_all_hotkeys,
      the_keyboard, bind. cbn. rewrite Hk. split; reflexivity.
Qed.

Lemma closeEvent_without_keyboard_witness :
  closeEvent demo_wayland =
    (Raise (NameError "keyboard"),
     with_log (log demo_wayland ++ [EvStop]) (with_streams [] demo_wayland)).
Proof.
  apply (@closeEvent_without_keyboard demo_wayland); [apply reach_init|reflexivity].
Defined.

(** ** Bindings and assigned hotkeys *)










(** Adding a file over an entry of the same name is the case left out
    above: [demo_readded] is a state of the open window in which the
    entry ["clap.wav"] has no hotkey and yet keeps the binding its
    predecessor had. *)
Lemma add_sound_keeps_stale_binding :
  reachable demo_readded /\
  Dict.get "clap.wav" (sounds demo_readded)
    = Some {| path := "/other/clap.wav"; key := None |} /\
  keyed_names demo_readded = [] /\
  bound_names demo_readded = ["clap.wav"] /\
  Dict.get "clap.wav" (hotkey_ids demo_readded) = Some 0 /\
  fired "ctrl+shift+w" demo_readded = ["clap.wav"] /\
  events_of (trigger demo_env "ctrl+shift+w") demo_readded
    = [EvRead "/other/clap.wav"; EvStop; EvQueryDevices; EvPlay 1].
Proof.
  split; [apply reach_step; apply reach_init|].
  repeat split; reflexivity.
Qed.

(** * Further properties *)

(** ** The hotkey dialog *)

Lemma lower_ascii_idem (c : ascii) : Str.lower_ascii (Str.lower_ascii c) = Str.lower_ascii c.
Proof. destruct c as [[] [] [] [] [] [] [] []]; reflexivity. Qed.

Lemma lower_idem (s : string) : Str.lower (Str.lower s) = Str.lower s.
Proof. induction s as [|c s IH]; cbn; [reflexivity|]. now rewrite lower_ascii_idem, IH. Qed.






(** ** More on the sink *)

Lemma find_from_shift (devs : list device) : forall base,
  find_from (S base) devs = option_map S (find_from base devs).
Proof.
  induction devs as [|d ds IH]; intros base; cbn; [reflexivity|].
  destruct (Str.contains "soundboard_internal" (Str.lower (dev_name d))); [reflexivity|].
  apply IH.
Qed.

(** X2: the first match wins and only the lower-cased names count: devices
    listed after a match never change the index found, devices listed
    before that do not match move it by their number, and lower-casing
    every name beforehand changes nothing. *)
Theorem find_from_first_wins :
  (forall l1 l2,
     find_from 0 (l1 ++ l2) =
     match find_from 0 l1 with
     | Some i => Some i
     | None => option_map (fun j => length l1 + j) (find_from 0 l2)
     end) /\
  (forall devs,
     find_from 0 (map (fun d => {| dev_name := Str.lower (dev_name d) |}) devs)
     = find_from 0 devs).
Proof.
  split.
  - induction l1 as [|d l1 IH]; intros l2.
    + cbn. now destruct (find_from 0 l2).
    + cbn [app find_from length].
      destruct (Str.contains "soundboard_internal" (Str.lower (dev_name d))); [reflexivity|].
      rewrite !find_from_shift, IH.
      destruct (find_from 0 l1); [reflexivity|].
      now destruct (find_from 0 l2).
  - intros devs. generalize 0.
    induction devs as [|d ds IH]; intros base; cbn; [reflexivity|].
    now rewrite lower_idem, IH.
Qed.

(** ** What playing leaves alone *)

Lemma same_but_audio_refl w : same_but_audio w w.
Proof. now repeat split. Qed.

Lemma same_but_audio_trans a b c :
  same_but_audio a b -> same_but_audio b c -> same_but_audio a c.
Proof. unfold same_but_audio. intuition congruence. Qed.

Lemma play_sound_same_but_audio E name : stable same_but_audio (play_sound E name).
Proof.
  intros w. rewrite play_sound_outcome.
  destruct (Dict.get name (sounds w)) as [e|]; [|apply same_but_audio_refl].
  destruct (load_audio E (path e)) as [[data sr]|];
    [destruct (find_from 0 (query_devices E))|]; now repeat split.
Qed.

Lemma audio_handlers_same (E : env) (w : world) :
  (forall cur, same_but_audio w (exec (handle E (ClickPlay cur)) w)) /\
  same_but_audio w (exec (handle E ClickStop) w) /\
  (forall combo, same_but_audio w (exec (handle E (PressCombo combo)) w)).
Proof.
  split; [|split].
  - intros cur. unfold exec. cbn [handle]. unfold play_selected.
    erewrite bind_val by reflexivity.
    destruct (currentItem cur w) as [[i text]|]; [|apply same_but_audio_refl].
    apply play_sound_same_but_audio.
  - now repeat split.
  - intros combo. unfold exec. cbn [handle]. unfold trigger.
    apply stable_bind.
    + exact same_but_audio_trans.
    + apply stable_get. exact same_but_audio_refl.
    + intros w0. apply stable_for_each.
      * exact same_but_audio_refl.
      * exact same_but_audio_trans.
      * intros a. apply play_sound_same_but_audio.
Qed.

(** X3: the play button, the stop button and a pressed combination touch
    nothing but the audio streams: the store, the list, the settings, the
    handle table and the installed bindings are as before, whether the
    handler returns or raises. *)
Theorem playback_leaves_store_alone (E : env) (w : world) :
  (forall cur, same_but_audio w (exec (handle E (ClickPlay cur)) w)) /\
  same_but_audio w (exec (handle E ClickStop) w) /\
  (forall combo, same_but_audio w (exec (handle E (PressCombo combo)) w)).
Proof. apply audio_handlers_same. Qed.

(** ** What every state of the open window satisfies *)

Lemma keyed_in_store w n : In n (keyed_names w) -> Dict.get n (sounds w) <> None.
Proof.
  unfold keyed_names. intros Hin. apply in_map_iff in Hin as ([n' e] & <- & Hin).
  apply filter_In in Hin as [Hin _]. intros Hnone.
  apply DictFacts.get_none_iff in Hnone. apply Hnone.
  change (fst (n', e)) with (fst (n', e)). now apply (in_map fst) in Hin.
Qed.

Lemma bound_in_store_same w w' :
  same_but_audio w w' -> bound_in_store w -> bound_in_store w'.
Proof.
  intros (_ & Hk & Hs & _) H n. unfold bound_names. rewrite Hk, Hs. apply H.
Qed.

Lemma init_bound_in_store E sess q : bound_in_store (exec (init E) (fresh sess q)).
Proof.
  unfold exec, init.
  destruct (load_sounds_frame E (fresh sess q)) as (w1 & Hrun & Hhk & _ & _ & Hwf).
  erewrite bind_val by exact Hrun. erewrite bind_val by reflexivity.
  pose proof (init_inv E sess q) as Hinv. unfold exec, init in Hinv.
  erewrite bind_val in Hinv by exact Hrun. erewrite bind_val in Hinv by reflexivity.
  assert (Ht1 : tracked w1).
  { apply (tracked_same_hotkeys Hhk). unfold tracked, is_x11, fresh.
    cbn -[Str.lower String.eqb].
    destruct (String.eqb (Str.lower sess) "x11") eqn:Hs;
      cbn -[Str.lower String.eqb]; rewrite ?Hs; repeat split; constructor. }
  destruct (is_x11 w1) eqn:Hx.
  - destruct (keyboard w1) as [k|] eqn:Hk.
    2:{ unfold tracked in Ht1. rewrite Hk in Ht1. destruct Ht1. congruence. }
    destruct (@register_hotkeys_x11 w1 k Hk Ht1 Hwf) as (w' & Hrun' & _ & _ & Hsync & _).
    rewrite Hrun'. cbn [snd]. intros n Hn. rewrite Hsync in Hn. now apply keyed_in_store.
  - cbn [snd ret]. intros n Hn. unfold tracked in Ht1. unfold bound_names in Hn.
    destruct (keyboard w1); [destruct Ht1; congruence|destruct Hn].
Qed.

Lemma handle_bound_in_store E ev w :
  inv w -> bound_in_store w -> bound_in_store (exec (handle E ev) w).
Proof.
  intros Hinv Hb.
  destruct ev as [p|cur|cur dlg|cur| |combo].
  - unfold exec. cbn [handle]. unfold add_sound. destruct (Str.truthy p); [|exact Hb].
    intros n Hn. cbn in *. specialize (Hb n Hn).
    destruct (String.eqb_spec n (basename p)) as [->|Hne].
    + now rewrite DictFacts.get_set_same.
    + now rewrite DictFacts.get_set_other.
  - unfold exec. cbn [handle]. unfold delete_sound. erewrite bind_val by reflexivity.
    destruct (currentItem cur w) as [[i text]|]; [|exact Hb].
    destruct Hinv as (Ht & _ & Hwf & _).
    destruct (@delete_item_spec i (parse_name text) w Ht Hwf)
      as (w1 & w' & _ & _ & _ & Hrun & Hs' & _ & _ & _ & _ & _ & _ & Hb').
    rewrite Hrun. cbn [snd]. intros n Hn. rewrite Hb' in Hn.
    apply filter_In in Hn as [Hn Hne]. apply negb_true_iff, String.eqb_neq in Hne.
    rewrite Hs', DictFacts.get_pop_other by congruence. now apply Hb.
  - unfold exec. cbn [handle]. erewrite bind_val by reflexivity.
    destruct (is_x11 w) eqn:Hx; [|exact Hb].
    unfold assign_hotkey. erewrite bind_val by reflexivity.
    destruct (currentItem cur w) as [[i text]|]; [|exact Hb].
    unfold assign_item. erewrite bind_val by reflexivity. rewrite Hx.
    erewrite bind_val by reflexivity.
    destruct (dlg_exec dlg && truthy_opt (dlg_key dlg)); [|exact Hb].
    destruct (Dict.get (parse_name text) (sounds w)) as [e|]; [|exact Hb].
    unfold bind at 1. unfold modify at 1.
    unfold bind at 1. unfold modify at 1.
    unfold bind at 1. unfold save_sounds at 1. unfold modify at 1.
    match goal with |- bound_in_store (snd (register_hotkeys ?w0)) => set (w1 := w0) end.
    destruct Hinv as (Ht & Hs & Hh & Hl).
    assert (Ht1 : tracked w1) by exact Ht.
    destruct (keyboard w1) as [k|] eqn:Hk.
    2:{ unfold tracked in Ht1. rewrite Hk in Ht1. destruct Ht1 as (E' & _).
        change (is_x11 w1) with (is_x11 w) in E'. congruence. }
    destruct (@register_hotkeys_x11 w1 k Hk Ht1) as (w' & Hrun & _ & _ & Hsync' & _).
    { subst w1. cbn. now apply DictFacts.wf_set. }
    rewrite Hrun. cbn [snd]. intros n Hn. rewrite Hsync' in Hn. now apply keyed_in_store.
  - eapply bound_in_store_same; [apply audio_handlers_same|exact Hb].
  - eapply bound_in_store_same; [apply audio_handlers_same|exact Hb].
  - eapply bound_in_store_same; [apply audio_handlers_same|exact Hb].
Qed.

Lemma reachable_bound_in_store w : reachable w -> bound_in_store w.
Proof.
  induction 1 as [sess q E|w E ev Hr IH]; [apply init_bound_in_store|].
  apply handle_bound_in_store; [now apply reachable_inv|exact IH].
Qed.



(** ** What a pressed combination can raise *)

Lemma play_all_outcome E : forall names w,
  (forall n, In n names -> Dict.get n (sounds w) <> None) ->
  match fst (for_each (play_sound E) names w) with
  | Val _ => True
  | Raise (SoundFileError _) => True
  | Raise (RuntimeError _) => True
  | Raise (KeyError _) => False
  | Raise (NameError _) => False
  end.
Proof.
  induction names as [|n names IH]; intros w Hin; [exact I|].
  cbn [for_each]. unfold bind.
  pose proof (play_sound_same_but_audio E n w) as (_ & _ & Hs & _).
  rewrite play_sound_outcome in *.
  destruct (Dict.get n (sounds w)) as [e|] eqn:Hg.
  2:{ exfalso. apply (Hin n); [now left|exact Hg]. }
  destruct (load_audio E (path e)) as [[data sr]|]; [|exact I].
  destruct (find_from 0 (query_devices E)) as [i|]; [|exact I].
  apply IH. intros n' Hn'. cbn [snd] in Hs. rewrite Hs. apply Hin. now right.
Qed.

(** X5: in every state of the open window a pressed combination either
    plays or fails on the file or the sink ([SoundFileError],
    [RuntimeError]); its callbacks never meet a name that is missing from
    the store, and never the missing [keyboard] module. *)
Theorem trigger_never_key_error (w : world) (E : env) (combo : string) :
  reachable w ->
  match fst (trigger E combo w) with
  | Val _ => True
  | Raise (SoundFileError _) => True
  | Raise (RuntimeError _) => True
  | Raise (KeyError _) => False
  | Raise (NameError _) => False
  end.
Proof.
  intros Hr. apply reachable_bound_in_store in Hr.
  unfold trigger. erewrite bind_val by reflexivity.
  apply play_all_outcome. intros n Hn. apply Hr. now apply fired_bound with combo.
Qed.

Lemma trigger_never_key_error_witness :
  match fst (trigger demo_env "ctrl+shift+w" demo_readded) with
  | Val _ => True
  | Raise (SoundFileError _) => True
  | Raise (RuntimeError _) => True
  | Raise (KeyError _) => False
  | Raise (NameError _) => False
  end.
Proof.
  apply trigger_never_key_error. apply reach_step. apply reach_init.
Defined.

(** ** Rebuilding the bindings *)

Lemma register_one_bindings ne w k :
  keyboard w = Some k ->
  exists w1 k1,
    register_one ne w = (Val tt, w1) /\ keyboard w1 = Some k1 /\
    bindings w1 = bindings w ++ keyed_bindings [ne].
Proof.
  intros Hk. destruct ne as [name data]. unfold register_one, keyed_bindings. cbn.
  destruct (key data) as [c|].
  2:{ exists w, k. rewrite app_nil_r. auto. }
  destruct (Str.truthy c).
  2:{ exists w, k. rewrite app_nil_r. auto. }
  erewrite bind_val by (eapply kb_add_hotkey_live; exact Hk).
  unfold modify. eexists. eexists. split; [reflexivity|]. split; [reflexivity|].
  unfold bindings. cbn. rewrite Hk, map_app. reflexivity.
Qed.

Lemma register_loop_bindings : forall d w k,
  keyboard w = Some k ->
  bindings (snd (for_each register_one d w)) = bindings w ++ keyed_bindings d.
Proof.
  induction d as [|ne d IH]; intros w k Hk.
  - cbn. now rewrite app_nil_r.
  - destruct (@register_one_bindings ne w k Hk) as (w1 & k1 & Hrun & Hk1 & Hb1).
    cbn [for_each]. erewrite bind_val by exact Hrun.
    rewrite (IH w1 k1 Hk1), Hb1, <- app_assoc.
    unfold keyed_bindings. cbn [flat_map]. now rewrite app_nil_r.
Qed.

Lemma register_hotkeys_bindings w k :
  keyboard w = Some k -> tracked w ->
  bindings (snd (register_hotkeys w)) = keyed_bindings (sounds w).
Proof.
  intros Hk Ht. unfold register_hotkeys.
  erewrite bind_val by reflexivity.
  rewrite (@tracked_ids w k Hk Ht).
  pose proof Ht as Ht0. unfold tracked in Ht0. rewrite Hk in Ht0.
  destruct Ht0 as (_ & _ & Hnd & _).
  destruct k as [hs n]. cbn [hooks next_id] in *.
  destruct (@remove_all_hooks hs n w Hk Hnd) as (w1 & Hrun1 & Hk1 & Hsame1).
  erewrite bind_val by exact Hrun1.
  erewrite bind_val by reflexivity.
  erewrite bind_val by reflexivity.
  cbn [sounds with_hotkey_ids].
  rewrite (@register_loop_bindings (sounds w1) (with_hotkey_ids [] w1)
             {| hooks := []; next_id := n |} Hk1).
  unfold bindings at 1. cbn. rewrite Hk1. cbn.
  destruct Hsame1 as (_ & -> & _). reflexivity.
Qed.

Lemma fired_bindings combo w :
  fired combo w = map fst (filter (fun b => String.eqb (snd b) combo) (bindings w)).
Proof.
  unfold fired, bindings. destruct (keyboard w) as [k|]; [|reflexivity].
  rewrite <- (map_filter_swap (fun h => (hk_name h, hk_combo h))
                (fun b => String.eqb (snd b) combo)).
  now rewrite map_map.
Qed.

Lemma keyed_bindings_by combo (d : Dict.t entry) :
  map fst (filter (fun b => String.eqb (snd b) combo) (keyed_bindings d)) = keyed_by combo d.
Proof.
  unfold keyed_by. induction d as [|[n e] d IH]; [reflexivity|].
  cbn [keyed_bindings flat_map filter fst snd].
  fold (keyed_bindings d). rewrite filter_app, map_app, IH.
  destruct (key e) as [c|]; [|reflexivity].
  destruct (Str.truthy c); [|reflexivity].
  cbn. now destruct (String.eqb c combo).
Qed.

Lemma register_hotkeys_fired w k combo :
  keyboard w = Some k -> tracked w ->
  fired combo (snd (register_hotkeys w)) = keyed_by combo (sounds w).
Proof.
  intros Hk Ht.
  now rewrite fired_bindings, (@register_hotkeys_bindings w k Hk Ht), keyed_bindings_by.
Qed.

Lemma x11_keyboard w : tracked w -> is_x11 w = true -> exists k, keyboard w = Some k.
Proof.
  unfold tracked. destruct (keyboard w) as [k|]; [eauto|]. intros (E & _). congruence.
Qed.



(** ** Several entries on one combination *)

Lemma play_all_last E i : forall names w d,
  find_from 0 (query_devices E) = Some i ->
  (forall n, In n (names ++ [d]) ->
     exists e data sr, Dict.get n (sounds w) = Some e /\
                       load_audio E (path e) = Some (data, sr)) ->
  exists w' e data sr,
    for_each (play_sound E) (names ++ [d]) w = (Val tt, w') /\
    Dict.get d (sounds w) = Some e /\
    load_audio E (path e) = Some (data, sr) /\
    streams w' = [{| st_device := i; st_data := data |}].
Proof.
  induction names as [|n names IH]; intros w d Hi Hall.
  - destruct (Hall d) as (e & data & sr & Hg & Hl); [now left|].
    cbn [app for_each]. unfold bind. rewrite play_sound_outcome, Hg, Hl, Hi.
    eexists. exists e, data, sr. cbn.
    split; [reflexivity|]. split; [reflexivity|]. split; [exact Hl|reflexivity].
  - destruct (Hall n) as (e & data & sr & Hg & Hl); [now left|].
    cbn [app for_each]. unfold bind at 1. rewrite play_sound_outcome, Hg, Hl, Hi.
    match goal with |- context [for_each _ _ ?w0] => set (w1 := w0) end.
    destruct (IH w1 d Hi) as (w' & e' & data' & sr' & Hrun & Hg' & Hl' & Hs').
    { intros n' Hn'. apply Hall. now right. }
    exists w', e', data', sr'. auto.
Qed.

(** X7: when the sink is there and every entry bound to a combination
    decodes, pressing the combination runs all its callbacks, in the
    order the bindings were installed, and returns; each one stops the
    stream of the one before, so that the stream left playing is that of
    the last entry bound, alone. *)
Theorem trigger_last_wins (E : env) (w : world) (combo : string) (i : nat)
        (names : list string) (d : string) :
  find_from 0 (query_devices E) = Some i ->
  fired combo w = names ++ [d] ->
  (forall n, In n (fired combo w) ->
     exists e data sr, Dict.get n (sounds w) = Some e /\
                       load_audio E (path e) = Some (data, sr)) ->
  exists w' e data sr,
    trigger E combo w = (Val tt, w') /\
    Dict.get d (sounds w) = Some e /\
    load_audio E (path e) = Some (data, sr) /\
    streams w' = [{| st_device := i; st_data := data |}].
Proof.
  intros Hi Hf Hall. unfold trigger. erewrite bind_val by reflexivity.
  rewrite Hf in *. now apply play_all_last.
Qed.

Lemma trigger_last_wins_witness :
  exists w',
    trigger studio_env "f9" demo_shared = (Val tt, w') /\
    streams w' = [{| st_device := 1; st_data := [String.length "/m/sfx/horn.ogg"] |}].
Proof.
  destruct (@trigger_last_wins studio_env demo_shared "f9" 1 ["clap.wav"] "horn.ogg")
    as (w' & e & data & sr & Hrun & Hg & Hl & Hs).
  - reflexivity.
  - reflexivity.
  - intros n [<-|[<-|[]]]; eexists; eexists; eexists; split; reflexivity.
  - exists w'. split; [exact Hrun|].
    injection Hg as <-. injection Hl as <- _. exact Hs.
Defined.

(** ** Assigning a hotkey *)





(** X9: [assign_hotkey] does nothing at all when no item is selected or
    when the dialog comes back rejected or without a key; and when the
    name read off the item is not in the store it raises [KeyError] with
    that name and leaves everything as it was: no item text, no setting
    and no binding changes. *)
Theorem assign_hotkey_declines (w : world) (cur : option nat) (dlg : dialog) :
  is_x11 w = true ->
  (currentItem cur w = None -> assign_hotkey cur dlg w = (Val tt, w)) /\
  (dlg_exec dlg && truthy_opt (dlg_key dlg) = false -> assign_hotkey cur dlg w = (Val tt, w)) /\
  (forall i text,
     currentItem cur w = Some (i, text) ->
     dlg_exec dlg && truthy_opt (dlg_key dlg) = true ->
     Dict.get (parse_name text) (sounds w) = None ->
     assign_hotkey cur dlg w = (Raise (KeyError (parse_name text)), w)).
Proof.
  intros Hx. unfold assign_hotkey, assign_item, bind, get.
  split; [|split].
  - now intros ->.
  - intros Hd. destruct (currentItem cur w) as [[i text]|]; [|reflexivity].
    now rewrite Hx, Hd.
  - intros i text Hcur Hd Hg. now rewrite Hcur, Hx, Hd, Hg.
Qed.

Lemma assign_hotkey_declines_witness :
  assign_hotkey (Some 0) {| dlg_exec := true; dlg_key := Some "f2" |} demo_bracket
  = (Raise (KeyError "a"), demo_bracket).
Proof.
  apply (proj2 (proj2 (@assign_hotkey_declines demo_bracket (Some 0)
                         {| dlg_exec := true; dlg_key := Some "f2" |} eq_refl))
           0 (note_sp ++ "a [1].wav")%string); reflexivity.
Defined.

(** ** Adding, again *)

(** X10: a cancelled file dialog changes nothing.  Adding a file appends
    one item to the list and never touches the keyboard module, the
    handle table or the streams: every combination fires the names it
    fired before, and if one of them is the name just added, its callback
    now reads the added file. *)
Theorem add_sound_keeps_bindings (picked : string) (w : world) :
  Str.truthy picked = true ->
  add_sound "" w = (Val tt, w) /\
  items (exec (add_sound picked) w) = items w ++ [label (basename picked) None] /\
  keyboard (exec (add_sound picked) w) = keyboard w /\
  hotkey_ids (exec (add_sound picked) w) = hotkey_ids w /\
  streams (exec (add_sound picked) w) = streams w /\
  (forall combo, fired combo (exec (add_sound picked) w) = fired combo w) /\
  (forall E, exists rest,
     events_of (play_sound E (basename picked)) (exec (add_sound picked) w)
     = EvRead picked :: rest).
Proof.
  intros Hp. split; [reflexivity|].
  unfold exec, add_sound. rewrite Hp. cbn [negb].
  unfold bind, modify. rewrite save_sounds_run. cbn [snd].
  repeat (split; [reflexivity|]).
  intros E. unfold events_of. rewrite play_sound_outcome.
  cbn [sounds with_settings with_items with_sounds].
  rewrite DictFacts.get_set_same. cbn [path].
  destruct (load_audio E picked) as [[data sr]|];
    [destruct (find_from 0 (query_devices E))|];
    cbn [snd log with_log with_streams with_settings with_items with_sounds];
    rewrite skipn_app_exact; eexists; reflexivity.
Qed.

Lemma add_sound_keeps_bindings_witness :
  fired "ctrl+shift+w" (exec (add_sound "/other/clap.wav") demo_x11) = ["clap.wav"] /\
  exists rest,
    events_of (play_sound demo_env "clap.wav") (exec (add_sound "/other/clap.wav") demo_x11)
    = EvRead "/other/clap.wav" :: rest.
Proof.
  destruct (@add_sound_keeps_bindings "/other/clap.wav" demo_x11 eq_refl)
    as (_ & _ & _ & _ & _ & Hf & Hplay).
  split; [rewrite Hf; reflexivity|apply (Hplay demo_env)].
Defined.

(** ** Adding and deleting *)

Lemma reachable_unbound w n :
  reachable w -> Dict.get n (sounds w) = None -> Dict.get n (hotkey_ids w) = None.
Proof.
  intros Hr Hg. pose proof (reachable_bound_in_store Hr) as Hb.
  apply reachable_inv in Hr. destruct Hr as (Ht & _).
  destruct (keyboard w) as [k|] eqn:Hk.
  - apply DictFacts.get_none_iff. rewrite (@tracked_names w k Hk Ht).
    intros Hin. now apply (Hb n).
  - unfold tracked in Ht. rewrite Hk in Ht. destruct Ht as (_ & ->). reflexivity.
Qed.

Lemma takeItem_last (l : list string) (x : string) : takeItem (length l) (l ++ [x]) = l.
Proof.
  unfold takeItem. rewrite firstn_app, Nat.sub_diag, firstn_all. cbn [firstn].
  rewrite skipn_all2 by (rewrite length_app; cbn; lia). now rewrite !app_nil_r.
Qed.

Lemma pop_last (d : Dict.t entry) n e :
  Dict.get n d = None -> Dict.pop n (d ++ [(n, e)]) = d.
Proof.
  intros Hg. unfold Dict.pop. rewrite filter_app. cbn. rewrite String.eqb_refl. cbn.
  rewrite app_nil_r. now apply DictFacts.pop_absent.
Qed.

(** X11: in any state of the open window, adding a file whose name is new
    to the store (and free of [" ["] and ["🎵 "]) and then deleting the
    item just added brings back the store, the list, the handle table and
    the bindings as they were, and the settings hold that store. *)
Theorem add_then_delete (w : world) (picked : string) :
  reachable w ->
  Str.truthy picked = true ->
  Dict.get (basename picked) (sounds w) = None ->
  Str.contains " [" (basename picked) = false ->
  Str.contains note_sp (basename picked) = false ->
  exists w',
    delete_sound (Some (length (items w))) (exec (add_sound picked) w) = (Val tt, w') /\
    sounds w' = sounds w /\
    items w' = items w /\
    keyboard w' = keyboard w /\
    hotkey_ids w' = hotkey_ids w /\
    saved w'.
Proof.
  intros Hr Hp Hfresh Hb Hn.
  pose proof (reachable_unbound _ Hr Hfresh) as Hunb.
  set (w1 := exec (add_sound picked) w).
  assert (Hr1 : reachable w1) by (apply (reach_step demo_env (ClickAdd picked)); exact Hr).
  assert (Hs1 : sounds w1 = sounds w ++ [(basename picked, {| path := picked; key := None |})]).
  { subst w1. unfold exec, add_sound. rewrite Hp. cbn. now apply DictFacts.set_fresh. }
  assert (Hi1 : items w1 = items w ++ [label (basename picked) None]).
  { subst w1. unfold exec, add_sound. rewrite Hp. reflexivity. }
  assert (Hk1 : keyboard w1 = keyboard w /\ hotkey_ids w1 = hotkey_ids w).
  { subst w1. unfold exec, add_sound. rewrite Hp. split; reflexivity. }
  destruct Hk1 as (Hk1 & Hh1).
  assert (Hcur : currentItem (Some (length (items w))) w1
                 = Some (length (items w), label (basename picked) None)).
  { unfold currentItem. rewrite Hi1, nth_error_app2, Nat.sub_diag by lia. reflexivity. }
  assert (Hparse : parse_name (label (basename picked) None) = basename picked).
  { apply StrFacts.parse_label; auto. discriminate. }
  pose proof (reachable_inv Hr1) as (Ht1 & _ & Hwf1 & _).
  destruct (@delete_item_spec (length (items w)) (basename picked) w1 Ht1 Hwf1)
    as (w0 & w' & Hun & _ & _ & Hrun & Hs' & Hi' & Hk' & Hh' & Hsaved & _).
  assert (Hw0 : w0 = w1).
  { unfold unbind, bind, get in Hun. rewrite Hh1, Hunb in Hun. now injection Hun. }
  subst w0. exists w'. split.
  { unfold delete_sound. erewrite bind_val by reflexivity. rewrite Hcur, Hparse. exact Hrun. }
  split; [rewrite Hs', Hs1; now apply pop_last|].
  split; [rewrite Hi', Hi1; apply takeItem_last|].
  split; [congruence|].
  split; [rewrite Hh', Hh1; now apply DictFacts.pop_absent|exact Hsaved].
Qed.

Lemma add_then_delete_witness :
  exists w',
    delete_sound (Some 1) (exec (add_sound "/m/sfx/horn.ogg") demo_x11) = (Val tt, w') /\
    sounds w' = sounds demo_x11 /\ items w' = items demo_x11.
Proof.
  destruct (@add_then_delete demo_x11 "/m/sfx/horn.ogg")
    as (w' & Hrun & Hs & Hi & _); try reflexivity.
  - apply reach_init.
  - exists w'. split; [exact Hrun|]. split; [exact Hs|exact Hi].
Defined.



(** ** Names the list cannot reach *)

Lemma keeps_entry_refl n w : keeps_entry n w w.
Proof. reflexivity. Qed.

Lemma keeps_entry_trans n a b c :
  keeps_entry n a b -> keeps_entry n b c -> keeps_entry n a c.
Proof. unfold keeps_entry. congruence. Qed.

#[local] Hint Resolve keeps_entry_refl keeps_entry_trans : core.

Lemma parse_name_misses text n : Str.contains " [" n = true -> parse_name text <> n.
Proof.
  intros Hc Heq. pose proof (StrFacts.parse_name_free text) as Hf.
  rewrite Heq in Hf. congruence.
Qed.

Ltac keeps_entry_modify :=
  unfold keeps_entry; cbn [sounds with_keyboard with_sounds with_hotkey_ids with_items
                           with_settings with_streams with_accepted with_log];
  try reflexivity.

Lemma register_hotkeys_keeps n : stable (keeps_entry n) register_hotkeys.
Proof.
  unfold register_hotkeys, register_one, kb_remove_hotkey, kb_add_hotkey.
  repeat frame_step; keeps_entry_modify.
Qed.

Lemma delete_sound_keeps n cur :
  Str.contains " [" n = true -> stable (keeps_entry n) (delete_sound cur).
Proof.
  intros Hc. unfold delete_sound, delete_item, unbind, kb_remove_hotkey, save_sounds.
  repeat frame_step; keeps_entry_modify.
  apply DictFacts.get_pop_other. intros ->. now apply (parse_name_misses s Hc).
Qed.

Lemma assign_hotkey_keeps n cur dlg :
  Str.contains " [" n = true -> stable (keeps_entry n) (assign_hotkey cur dlg).
Proof.
  intros Hc. unfold assign_hotkey, assign_item, save_sounds.
  repeat frame_step; keeps_entry_modify; try apply register_hotkeys_keeps.
  apply DictFacts.get_set_other. intros ->. now apply (parse_name_misses s Hc).
Qed.

(** X13: whatever the text of an item, the name read off it never contains
    [" ["].  So an entry whose name contains [" ["] cannot be reached from
    the list: in any state, no delete, hotkey assignment, play, stop or
    pressed combination changes or removes it, and only adding a file of
    that very name replaces it. *)
Theorem bracket_names_stay (n : string) (E : env) (ev : ui_event) (w : world) :
  Str.contains " [" n = true ->
  (forall p, ev = ClickAdd p -> basename p <> n) ->
  (forall text, parse_name text <> n) /\
  keeps_entry n w (exec (handle E ev) w).
Proof.
  intros Hc Hadd. split; [intros text; now apply parse_name_misses|].
  destruct ev as [p|cur|cur dlg|cur| |combo]; unfold exec; cbn [handle].
  - unfold add_sound. destruct (Str.truthy p); [|reflexivity].
    unfold keeps_entry. cbn. apply DictFacts.get_set_other. intros Heq.
    now apply (Hadd p).
  - now apply delete_sound_keeps.
  - unfold bind, get. destruct (is_x11 w); [|reflexivity].
    now apply assign_hotkey_keeps.
  - destruct (audio_handlers_same E w) as (H & _). specialize (H cur).
    unfold exec in H. cbn [handle] in H.
    unfold keeps_entry. destruct H as (_ & _ & -> & _). reflexivity.
  - reflexivity.
  - destruct (audio_handlers_same E w) as (_ & _ & H). specialize (H combo).
    unfold exec in H. cbn [handle] in H.
    unfold keeps_entry. destruct H as (_ & _ & -> & _). reflexivity.
Qed.

Lemma bracket_names_stay_witness :
  keeps_entry "a [1].wav" demo_bracket (exec (handle demo_env (ClickDelete (Some 0))) demo_bracket).
Proof.
  apply (@bracket_names_stay "a [1].wav" demo_env (ClickDelete (Some 0)) demo_bracket eq_refl).
  intros p Hp. discriminate Hp.
Defined.

(** ** More on saving and loading *)

Lemma set_slot_length_max i r slots :
  i <= length slots -> length (set_slot i r slots) = Nat.max (length slots) (S i).
Proof.
  intros Hi. unfold set_slot.
  rewrite length_app, length_firstn. cbn [length]. rewrite length_skipn. lia.
Qed.

Lemma set_slot_skipn i r slots :
  i <= length slots -> skipn (S i) (set_slot i r slots) = skipn (S i) slots.
Proof.
  intros Hi. unfold set_slot.
  rewrite skipn_app, length_firstn, Nat.min_l by exact Hi.
  replace (S i - i) with 1 by lia.
  rewrite (skipn_all2 (firstn i slots)) by (rewrite length_firstn; lia). reflexivity.
Qed.

Lemma write_from_length : forall d i slots,
  i <= length slots ->
  length (write_from i d slots) = Nat.max (length slots) (i + length d).
Proof.
  induction d as [|[name data] d IH]; intros i slots Hi; cbn [write_from length].
  - lia.
  - rewrite IH by (rewrite set_slot_length_max by exact Hi; lia).
    rewrite set_slot_length_max by exact Hi. lia.
Qed.

Lemma skipn_skipn_le {A} (l l' : list A) a b :
  a <= b -> skipn a l = skipn a l' -> skipn b l = skipn b l'.
Proof.
  intros Hab H. replace b with ((b - a) + a) by lia.
  now rewrite <- !skipn_skipn, H.
Qed.

Lemma write_from_skipn : forall d i slots,
  i <= length slots ->
  skipn (i + length d) (write_from i d slots) = skipn (i + length d) slots.
Proof.
  induction d as [|[name data] d IH]; intros i slots Hi; cbn [write_from length].
  - reflexivity.
  - replace (i + S (length d)) with (S i + length d) by lia.
    rewrite IH by (rewrite set_slot_length_max by exact Hi; lia).
    apply skipn_skipn_le with (a := S i); [lia|]. now apply set_slot_skipn.
Qed.

(** X14: [save_sounds] never raises and changes the settings only.  The
    array then holds the store, record by record and in order; the
    backend keeps the slots it had beyond the store's length, so it never
    shrinks, but they lie past the stored size and are not part of the
    array; and saving twice is saving once. *)
Theorem save_sounds_overwrites (w : world) :
  exists w',
    save_sounds w = (Val tt, w') /\
    w' = with_settings (settings w') w /\
    arr_size (settings w') = length (sounds w) /\
    persisted (settings w') = map record_of (sounds w) /\
    length (arr_slots (settings w'))
      = Nat.max (length (arr_slots (settings w))) (length (sounds w)) /\
    skipn (length (sounds w)) (arr_slots (settings w'))
      = skipn (length (sounds w)) (arr_slots (settings w)) /\
    save_sounds w' = (Val tt, w').
Proof.
  rewrite save_sounds_run. eexists. split; [reflexivity|].
  cbn [settings with_settings arr_size arr_slots sounds].
  split; [reflexivity|]. split; [reflexivity|].
  split; [exact (@write_from_firstn (sounds w) 0 (arr_slots (settings w)) (Nat.le_0_l _))|].
  split; [exact (@write_from_length (sounds w) 0 (arr_slots (settings w)) (Nat.le_0_l _))|].
  split; [exact (@write_from_skipn (sounds w) 0 (arr_slots (settings w)) (Nat.le_0_l _))|].
  rewrite save_sounds_run. cbn [settings with_settings arr_size arr_slots sounds].
  f_equal. unfold with_settings. cbn. f_equal. f_equal.
  set (x := write_from 0 (sounds w) (arr_slots (settings w))).
  rewrite <- (firstn_skipn (length (sounds w)) (write_from 0 (sounds w) x)).
  rewrite <- (firstn_skipn (length (sounds w)) x) at 3.
  f_equal.
  - transitivity (map record_of (sounds w)).
    + exact (@write_from_firstn (sounds w) 0 x (Nat.le_0_l _)).
    + symmetry.
      exact (@write_from_firstn (sounds w) 0 (arr_slots (settings w)) (Nat.le_0_l _)).
  - exact (@write_from_skipn (sounds w) 0 x (Nat.le_0_l _)).
Qed.

Lemma load_recs_items E : forall recs w,
  items (snd (for_each (load_rec E) recs w))
  = items w ++ map (fun r => label (r_name r) (r_key r)) (filter (loadable E) recs).
Proof.
  induction recs as [|r recs IH]; intros w.
  - cbn. now rewrite app_nil_r.
  - cbn [for_each]. erewrite bind_val by apply load_rec_run.
    rewrite IH. cbn [filter]. destruct (loadable E r); [|reflexivity].
    cbn. now rewrite <- app_assoc.
Qed.

Lemma set_length_le k (v : entry) (d : Dict.t entry) :
  length (Dict.set k v d) <= S (length d).
Proof.
  induction d as [|[k' v'] d IH]; cbn; [lia|].
  destruct (String.eqb k k'); cbn; lia.
Qed.

Lemma load_recs_count E : forall recs w,
  length (sounds (snd (for_each (load_rec E) recs w)))
  <= length (sounds w) + length (filter (loadable E) recs).
Proof.
  induction recs as [|r recs IH]; intros w.
  - cbn. lia.
  - cbn [for_each]. erewrite bind_val by apply load_rec_run.
    etransitivity; [apply IH|]. cbn [filter].
    destruct (loadable E r); [|lia].
    cbn [sounds with_items with_sounds length].
    pose proof (set_length_le (r_name r) (snd (entry_of r)) (sounds w)). lia.
Qed.

Lemma load_recs_reset E : forall recs w,
  with_sounds [] (with_items [] (snd (for_each (load_rec E) recs w)))
  = with_sounds [] (with_items [] w).
Proof.
  induction recs as [|r recs IH]; intros w; [reflexivity|].
  cbn [for_each]. erewrite bind_val by apply load_rec_run.
  rewrite IH. now destruct (loadable E r).
Qed.

(** X15: [load_sounds] changes the store and the list only.  The list gets
    one item per persisted record whose path exists, labelled with the
    record's name and hotkey, so it is never shorter than the store; when
    the persisted names are distinct the list shows the store entry by
    entry; and loading again gives the same state. *)
Theorem load_sounds_lists (E : env) (w : world) :
  exists w',
    load_sounds E w = (Val tt, w') /\
    with_sounds [] (with_items [] w') = with_sounds [] (with_items [] w) /\
    items w' = map (fun r => label (r_name r) (r_key r))
                   (filter (loadable E) (persisted (settings w))) /\
    length (sounds w') <= length (items w') /\
    (NoDup (map r_name (persisted (settings w))) -> listed w') /\
    load_sounds E w' = (Val tt, w').
Proof.
  destruct (load_sounds_spec E w) as (w' & Hrun & _ & _ & Hexact).
  exists w'. split; [exact Hrun|].
  pose proof Hrun as Hrun'. rewrite load_sounds_unfold in Hrun'.
  fold (persisted (settings w)) in Hrun'.
  assert (Hreset : with_sounds [] (with_items [] w') = with_sounds [] (with_items [] w)).
  { pose proof (load_recs_reset E (persisted (settings w)) (with_sounds [] (with_items [] w)))
      as H. rewrite Hrun' in H. exact H. }
  assert (Hitems : items w' = map (fun r => label (r_name r) (r_key r))
                                  (filter (loadable E) (persisted (settings w)))).
  { pose proof (load_recs_items E (persisted (settings w)) (with_sounds [] (with_items [] w)))
      as H. rewrite Hrun' in H. exact H. }
  split; [exact Hreset|]. split; [exact Hitems|]. split; [|split].
  - pose proof (load_recs_count E (persisted (settings w)) (with_sounds [] (with_items [] w)))
      as H. rewrite Hrun' in H. cbn in H. now rewrite Hitems, length_map.
  - intros Hnd. unfold listed. rewrite Hitems, (Hexact Hnd), map_map. reflexivity.
  - rewrite load_sounds_unfold.
    assert (Hset : settings w' = settings w).
    { change (settings (with_sounds [] (with_items [] w')) = settings w).
      now rewrite Hreset. }
    rewrite Hset, Hreset. fold (persisted (settings w)). exact Hrun'.
Qed.

Lemma load_sounds_lists_witness :
  exists w', load_sounds demo_env demo_readded = (Val tt, w') /\ listed w'.
Proof.
  destruct (load_sounds_lists demo_env demo_readded) as (w' & Hrun & _ & _ & _ & Hl & _).
  exists w'. split; [exact Hrun|]. apply Hl. repeat constructor. intros [].
Defined.

(** ** Opening the window again *)

Lemma fresh_tracked xdg q : tracked (fresh xdg q).
Proof.
  unfold tracked, is_x11, fresh. cbn -[Str.lower String.eqb].
  destruct (String.eqb (Str.lower xdg) "x11") eqn:Hs;
    cbn -[Str.lower String.eqb]; rewrite ?Hs; repeat split; constructor.
Qed.

(** X16: when the settings hold the store, as they do after every add,
    delete and hotkey assignment, and every stored path still exists, a
    new process opened on these settings gets the same store, in the same
    order, and a list that shows it entry by entry, without writing the
    settings.  Under x11 each combination then fires exactly the entries
    whose hotkey it is; in any other session nothing is bound. *)
Theorem reopen_restores (w : world) (E : env) (xdg : string) :
  saved w ->
  Dict.wf (sounds w) ->
  (forall ne, In ne (sounds w) -> loadable E (record_of ne) = true) ->
  exists w',
    init E (fresh xdg (settings w)) = (Val tt, w') /\
    sounds w' = sounds w /\
    listed w' /\
    settings w' = settings w /\
    is_x11 w' = String.eqb (Str.lower xdg) "x11" /\
    (is_x11 w' = true ->
     (forall combo, fired combo w' = keyed_by combo (sounds w)) /\
     bound_names w' = keyed_names w) /\
    (is_x11 w' = false -> bound_names w' = []).
Proof.
  intros Hsaved Hwf Hload.
  set (w0 := fresh xdg (settings w)).
  unfold init. rewrite (bind_val (load_sounds E) _ w0 (a := tt)
                          (w' := snd (load_sounds E w0))).
  2:{ destruct (load_sounds_frame E w0) as (w1 & Hrun & _). now rewrite Hrun. }
  erewrite bind_val by reflexivity.
  rewrite load_sounds_unfold.
  change (settings w0) with (settings w). fold (persisted (settings w)). rewrite Hsaved.
  destruct (load_recs_spec E (map record_of (sounds w)) (with_sounds [] (with_items [] w0)))
    as (w1 & Hrun & Hhk & Hstr & Hset & _ & _ & _ & _ & Hexact).
  rewrite Hrun. cbn [snd].
  destruct Hexact as (Hs1 & Hi1).
  { rewrite map_map. exact Hwf. }
  { reflexivity. }
  assert (Hall : filter (loadable E) (map record_of (sounds w)) = map record_of (sounds w)).
  { apply filter_all. intros r Hr. apply in_map_iff in Hr as (ne & <- & Hin). now apply Hload. }
  rewrite Hall in Hs1, Hi1. cbn [sounds items with_sounds with_items app] in Hs1, Hi1.
  assert (Hsnd : sounds w1 = sounds w).
  { rewrite Hs1, map_map. rewrite <- (map_id (sounds w)) at 2.
    apply map_ext. apply entry_of_record_of. }
  assert (Hlisted : listed w1).
  { unfold listed. rewrite Hi1, Hsnd, map_map. reflexivity. }
  assert (Ht1 : tracked w1) by (apply (tracked_same_hotkeys Hhk); apply fresh_tracked).
  assert (Hx1 : is_x11 w1 = String.eqb (Str.lower xdg) "x11").
  { unfold is_x11. destruct Hhk as (-> & _). reflexivity. }
  destruct (is_x11 w1) eqn:Hx.
  - destruct (@x11_keyboard w1 Ht1 Hx) as (k & Hk).
    destruct (@register_hotkeys_x11 w1 k Hk Ht1) as (w' & Hrun' & _ & _ & Hsync & Hsame).
    { rewrite Hsnd. exact Hwf. }
    exists w'. split; [exact Hrun'|].
    destruct Hsame as (Hsess & Hs' & Hi' & Hset' & _).
    split; [congruence|].
    split; [unfold listed in *; now rewrite Hi', Hs'|].
    split; [rewrite Hset'; exact Hset|].
    assert (Hx' : is_x11 w' = true) by (unfold is_x11 in *; now rewrite Hsess).
    split; [rewrite Hx'; exact Hx1|].
    split; [|intros; congruence].
    intros _. split.
    + intros combo. rewrite <- Hsnd.
      rewrite <- (@register_hotkeys_fired w1 k combo Hk Ht1), Hrun'. reflexivity.
    + rewrite Hsync. unfold keyed_names. now rewrite Hs', Hsnd.
  - exists w1. split; [reflexivity|]. split; [exact Hsnd|]. split; [exact Hlisted|].
    split; [exact Hset|]. split; [rewrite Hx; exact Hx1|].
    split; [intros; congruence|].
    intros _. unfold bound_names. unfold tracked in Ht1.
    destruct (keyboard w1); [destruct Ht1; congruence|reflexivity].
Qed.

Lemma reopen_restores_witness :
  exists w',
    init demo_env (fresh "X11" (settings demo_assigned)) = (Val tt, w') /\
    sounds w' = [("clap.wav", {| path := "/m/clap.wav"; key := Some "f2" |})] /\
    fired "f2" w' = ["clap.wav"].
Proof.
  destruct (@reopen_restores demo_assigned demo_env "X11")
    as (w' & Hrun & Hs & _ & _ & Hx & Hb & _).
  - reflexivity.
  - repeat constructor. intros [].
  - intros ne [<-|[]]. reflexivity.
  - exists w'. split; [exact Hrun|]. split; [exact Hs|].
    destruct (Hb Hx) as (Hf & _). rewrite Hf. reflexivity.
Defined.

(** ** Closing under x11 *)

(** X17: under x11, in any state of the open window, [closeEvent] returns
    and accepts the event; afterwards nothing plays and no combination
    fires any callback.  The store, the list and the settings are as they
    were, and so is the handle table, whose handles are no longer
    installed. *)
Theorem closeEvent_under_x11 (w : world) :
  reachable w ->
  is_x11 w = true ->
  exists w',
    closeEvent w = (Val tt, w') /\
    accepted w' = true /\
    streams w' = [] /\
    live_hooks w' = [] /\
    (forall combo, fired combo w' = []) /\
    sounds w' = sounds w /\ items w' = items w /\ settings w' = settings w /\
    hotkey_ids w' = hotkey_ids w.
Proof.
  intros Hr Hx. apply reachable_inv in Hr. destruct Hr as (Ht & _).
  destruct (@x11_keyboard w Ht Hx) as (k & Hk).
  unfold closeEvent, bind, sd_stop, emit, modify, kb_clear_all_hotkeys, the_keyboard, bind.
  cbn. rewrite Hk. cbn. eexists. split; [reflexivity|].
  unfold live_hooks, fired. cbn. repeat split; reflexivity.
Qed.

Lemma closeEvent_under_x11_witness :
  exists w', closeEvent demo_x11 = (Val tt, w') /\ fired "ctrl+shift+w" w' = [].
Proof.
  destruct (@closeEvent_under_x11 demo_x11) as (w' & Hrun & _ & _ & _ & Hf & _).
  - apply reach_init.
  - reflexivity.
  - exists w'. split; [exact Hrun|apply Hf].
Defined.

(** ** One stream at a time, call by call *)

Lemma scan_app : forall l l' b,
  scan b (l ++ l') = match scan b l with Some b' => scan b' l' | None => None end.
Proof.
  induction l as [|e l IH]; intros l' b; [reflexivity|].
  destruct e; cbn [app scan]; try apply IH.
  destruct b; [reflexivity|apply IH].
Qed.

Lemma keeps_turn_refl w : keeps_turn w w.
Proof. unfold keeps_turn. auto. Qed.

Lemma keeps_turn_trans a b c : keeps_turn a b -> keeps_turn b c -> keeps_turn a c.
Proof. unfold keeps_turn. auto. Qed.

#[local] Hint Resolve keeps_turn_refl keeps_turn_trans : core.

Ltac keeps_turn_modify :=
  unfold keeps_turn, in_turn, playing;
  cbn [log streams with_keyboard with_sounds with_hotkey_ids with_items
       with_settings with_streams with_accepted with_log];
  try (intros H; exact H);
  try (intros H; rewrite scan_app, H; reflexivity).

Lemma sd_stop_turn : stable keeps_turn sd_stop.
Proof.
  intros w. unfold keeps_turn, in_turn, playing. cbn. intros H.
  rewrite scan_app, H. reflexivity.
Qed.

Lemma play_sound_turn E name : stable keeps_turn (play_sound E name).
Proof.
  intros w. rewrite play_sound_outcome.
  destruct (Dict.get name (sounds w)) as [e|]; [|apply keeps_turn_refl].
  destruct (load_audio E (path e)) as [[data sr]|];
    [destruct (find_from 0 (query_devices E))|];
    unfold keeps_turn, in_turn, playing; cbn; intros H; rewrite scan_app, H; reflexivity.
Qed.

Lemma register_hotkeys_turn : stable keeps_turn register_hotkeys.
Proof.
  unfold register_hotkeys, register_one, kb_remove_hotkey, kb_add_hotkey.
  repeat frame_step; keeps_turn_modify.
Qed.

Lemma handle_turn E ev : stable keeps_turn (handle E ev).
Proof.
  destruct ev as [p|cur|cur dlg|cur| |combo]; cbn [handle].
  - unfold add_sound, save_sounds. repeat frame_step; keeps_turn_modify.
  - unfold delete_sound, delete_item, unbind, kb_remove_hotkey, save_sounds.
    repeat frame_step; keeps_turn_modify.
  - unfold assign_hotkey, assign_item, save_sounds.
    repeat frame_step; keeps_turn_modify; apply register_hotkeys_turn.
  - unfold play_selected. repeat frame_step. apply play_sound_turn.
  - apply sd_stop_turn.
  - unfold trigger. repeat frame_step. apply play_sound_turn.
Qed.

Lemma init_turn E : stable keeps_turn (init E).
Proof.
  unfold init, load_sounds, load_one, load_rec.
  repeat frame_step; keeps_turn_modify; apply register_hotkeys_turn.
Qed.

Lemma reachable_in_turn w : reachable w -> in_turn w.
Proof.
  induction 1 as [sess q E|w E ev _ IH].
  - apply init_turn. reflexivity.
  - now apply handle_turn.
Qed.

(** X18: going through the calls the window has made to the libraries, in
    any state of the open window, no [sd.play] ever comes while a stream
    started by an earlier one has not been stopped by [sd.stop()]; and a
    stream plays now, a single one, exactly when a [sd.play] came after
    the last [sd.stop()]. *)
Theorem plays_in_turn (w : world) :
  reachable w ->
  scan false (log w) = Some (playing w) /\ length (streams w) = if playing w then 1 else 0.
Proof.
  intros Hr. split; [now apply reachable_in_turn|].
  apply reachable_inv in Hr. destruct Hr as (_ & _ & _ & Hl).
  unfold playing. destruct (streams w) as [|x [|y l]]; cbn in *; lia.
Qed.

Lemma plays_in_turn_witness :
  scan false (log demo_playing) = Some true.
Proof.
  apply (@plays_in_turn demo_playing).
  apply reach_step. apply reach_step. apply reach_init.
Defined.

(** ** Nothing unsaved *)

Lemma record_of_entry_of r : record_of (entry_of r) = r.
Proof. now destruct r. Qed.

Lemma saved_all_saved w : saved w -> all_saved w.
Proof. intros Hs ne Hin. rewrite Hs. now apply in_map. Qed.

Lemma all_saved_same w w' :
  sounds w' = sounds w -> settings w' = settings w -> all_saved w -> all_saved w'.
Proof. intros Hs Hq H ne. rewrite Hs, Hq. apply H. Qed.

Lemma init_all_saved E sess q : all_saved (exec (init E) (fresh sess q)).
Proof.
  unfold exec, init.
  destruct (load_sounds_spec E (fresh sess q)) as (w1 & Hrun & Hin & _).
  destruct (load_sounds_frame E (fresh sess q)) as (w1' & Hrun' & Hhk & _ & Hset & Hwf).
  rewrite Hrun in Hrun'. injection Hrun' as <-.
  erewrite bind_val by exact Hrun. erewrite bind_val by reflexivity.
  assert (H1 : all_saved w1).
  { intros ne Hne. destruct (Hin ne Hne) as (_ & r & Hr & ->).
    rewrite record_of_entry_of, Hset. exact Hr. }
  destruct (is_x11 w1) eqn:Hx; [|exact H1].
  assert (Ht1 : tracked w1) by (apply (tracked_same_hotkeys Hhk); apply fresh_tracked).
  destruct (@x11_keyboard w1 Ht1 Hx) as (k & Hk).
  destruct (@register_hotkeys_x11 w1 k Hk Ht1 Hwf) as (w' & Hrun2 & _ & _ & _ & Hsame).
  rewrite Hrun2. cbn [snd]. destruct Hsame as (_ & Hs & _ & Hq & _).
  now apply (@all_saved_same w1 w' Hs Hq).
Qed.

Lemma handle_all_saved E ev w : inv w -> all_saved w -> all_saved (exec (handle E ev) w).
Proof.
  intros Hinv Hsv.
  destruct ev as [p|cur|cur dlg|cur| |combo].
  - unfold exec. cbn [handle]. unfold add_sound. destruct (Str.truthy p); [|exact Hsv].
    apply saved_all_saved. unfold saved, bind, save_sounds, modify.
    cbn [negb snd settings sounds with_settings with_items with_sounds].
    match goal with
    | |- persisted {| arr_size := _; arr_slots := write_from 0 ?d ?sl |} = _ =>
        exact (@write_from_firstn d 0 sl (Nat.le_0_l _))
    end.
  - unfold exec. cbn [handle]. unfold delete_sound. erewrite bind_val by reflexivity.
    destruct (currentItem cur w) as [[i text]|]; [|exact Hsv].
    destruct Hinv as (Ht & _ & Hwf & _).
    destruct (@delete_item_spec i (parse_name text) w Ht Hwf)
      as (w1 & w' & _ & _ & _ & Hrun & _ & _ & _ & _ & Hsaved & _).
    rewrite Hrun. now apply saved_all_saved.
  - unfold exec. cbn [handle]. erewrite bind_val by reflexivity.
    destruct (is_x11 w) eqn:Hx; [|exact Hsv].
    unfold assign_hotkey. erewrite bind_val by reflexivity.
    destruct (currentItem cur w) as [[i text]|]; [|exact Hsv].
    unfold assign_item. erewrite bind_val by reflexivity. rewrite Hx.
    erewrite bind_val by reflexivity.
    destruct (dlg_exec dlg && truthy_opt (dlg_key dlg)); [|exact Hsv].
    destruct (Dict.get (parse_name text) (sounds w)) as [e|]; [|exact Hsv].
    unfold bind at 1. unfold modify at 1.
    unfold bind at 1. unfold modify at 1.
    unfold bind at 1. unfold save_sounds at 1. unfold modify at 1.
    match goal with |- all_saved (snd (register_hotkeys ?w0)) => set (w1 := w0) end.
    destruct Hinv as (Ht & Hs & Hh & Hl).
    assert (Ht1 : tracked w1) by exact Ht.
    assert (Hx1 : is_x11 w1 = true) by exact Hx.
    destruct (@x11_keyboard w1 Ht1 Hx1) as (k & Hk).
    destruct (@register_hotkeys_x11 w1 k Hk Ht1) as (w' & Hrun & _ & _ & _ & Hsame).
    { subst w1. cbn. now apply DictFacts.wf_set. }
    rewrite Hrun. cbn [snd]. destruct Hsame as (_ & Hsnd & _ & Hq & _).
    apply (@all_saved_same w1 w' Hsnd Hq). apply saved_all_saved. unfold saved. subst w1.
    cbn [settings sounds with_settings with_items with_sounds].
    match goal with
    | |- persisted {| arr_size := _; arr_slots := write_from 0 ?d ?sl |} = _ =>
        exact (@write_from_firstn d 0 sl (Nat.le_0_l _))
    end.
  - destruct (audio_handlers_same E w) as (H & _). specialize (H cur).
    destruct H as (_ & _ & Hs & _ & _ & Hq & _). now apply (all_saved_same _ Hs Hq).
  - exact Hsv.
  - destruct (audio_handlers_same E w) as (_ & _ & H). specialize (H combo).
    destruct H as (_ & _ & Hs & _ & _ & Hq & _). now apply (all_saved_same _ Hs Hq).
Qed.

(** X19: in every state of the open window each entry of the store is in
    the settings array, with its name, path and hotkey: whatever a
    handler puts into the store it has written to the settings by the
    time it returns. *)
Theorem nothing_unsaved (w : world) :
  reachable w ->
  forall ne, In ne (sounds w) -> In (record_of ne) (persisted (settings w)).
Proof.
  induction 1 as [sess q E|w E ev Hr IH]; [apply init_all_saved|].
  apply handle_all_saved; [now apply reachable_inv|exact IH].
Qed.

Lemma nothing_unsaved_witness :
  In {| r_name := "clap.wav"; r_path := "/m/clap.wav"; r_key := Some "f2" |}
     (persisted (settings demo_assigned)).
Proof.
  apply (@nothing_unsaved demo_assigned (reach_step demo_env _ (reach_init "x11" demo_settings demo_env))
           ("clap.wav", {| path := "/m/clap.wav"; key := Some "f2" |})).
  left. reflexivity.
Defined.
